(** * Shallow embedding of the food-order microservices

    The services are Express handlers written as [async] functions.  Each
    handler is modelled in a small state/rejection monad: the state holds
    the external stores the handler talks to (Redis, PostgreSQL, the BullMQ
    queue), and an awaited call that throws makes the handler's promise
    reject, skipping the rest of the handler body. *)

From Stdlib Require Import ZArith String Ascii Lia.
From stdpp Require Import base gmap strings list.

Open Scope string_scope.

(* ------------------------------------------------------------------ *)
(** ** The async handler monad *)

Module Async.

Inductive outcome (A : Type) : Type :=
| Ok (a : A)
| Rejected (err : string).
Arguments Ok {A} a.
Arguments Rejected {A} err.

(** An async handler over a store of type [S]. *)
Definition M (S A : Type) : Type := S -> S * outcome A.

Definition ret {S A} (a : A) : M S A := fun s => (s, Ok a).

Definition await {S A B} (m : M S A) (k : A -> M S B) : M S B :=
  fun s =>
    match m s with
    | (s', Ok a) => k a s'
    | (s', Rejected e) => (s', Rejected e)
    end.

End Async.

Import Async.

Notation "x <- m ;; k" := (Async.await m (fun x => k))
  (at level 65, m at next level, right associativity).

(* ------------------------------------------------------------------ *)
(** ** restaurant-service: GET /restaurants (Redis cache-aside) *)

Module Restaurant.

Section RestaurantService.

(** A row of the [restaurants] table, its JSON text, and [JSON.parse]. *)
Variable row : Type.
Variable row_json : row -> string.
Variable parse : string -> list row.

(** [JSON.stringify(result.rows)]: an array literal. *)
Definition stringify (rs : list row) : string :=
  "[" ++ String.concat "," (map row_json rs) ++ "]".

Record St := mkSt {
  now : Z;                               (* wall clock, seconds *)
  redis : gmap string (string * Z);      (* key -> (value, expires at) *)
  restaurants : list row;                (* the restaurants table *)
  db_up : bool;                          (* PostgreSQL reachable *)
  db_reads : nat                         (* SELECTs issued: loader calls *)
}.

Definition set_redis (m : gmap string (string * Z)) (s : St) : St :=
  mkSt (now s) m (restaurants s) (db_up s) (db_reads s).
Definition set_reads (n : nat) (s : St) : St :=
  mkSt (now s) (redis s) (restaurants s) (db_up s) n.
Definition set_db_up (b : bool) (s : St) : St :=
  mkSt (now s) (redis s) (restaurants s) b (db_reads s).
Definition set_table (rs : list row) (s : St) : St :=
  mkSt (now s) (redis s) rs (db_up s) (db_reads s).
Definition advance (dt : Z) (s : St) : St :=
  mkSt (now s + dt)%Z (redis s) (restaurants s) (db_up s) (db_reads s).

(** Redis [GET]: a key whose expiry time has been reached reads as nil. *)
Definition live (s : St) (k : string) : option string :=
  match redis s !! k with
  | Some (v, exp) => if Z.ltb (now s) exp then Some v else None
  | None => None
  end.

Definition redis_get (k : string) : M St (option string) :=
  fun s => (s, Ok (live s k)).

(** Redis [SETEX key ttl value]. *)
Definition redis_setEx (k : string) (ttl : Z) (v : string) : M St unit :=
  fun s => (set_redis (<[k := (v, (now s + ttl)%Z)]> (redis s)) s, Ok tt).

(** [db.query("SELECT * FROM restaurants")]. *)
Definition db_select : M St (list row) :=
  fun s =>
    let s' := set_reads (S (db_reads s)) s in
    if db_up s then (s', Ok (restaurants s)) else (s', Rejected "ECONNREFUSED").

Inductive resp := Json (body : list row).

(** JavaScript truthiness of the value read from Redis. *)
Definition truthy (cache : option string) : bool :=
  match cache with
  | Some "" | None => false
  | Some _ => true
  end.

(** The tail of the handler run on a cache miss. *)
Definition load_and_cache : M St resp :=
  result <- db_select;;
  _ <- redis_setEx "restaurants" 60 (stringify result);;
  ret (Json result).

(** [app.get("/restaurants", ...)]. *)
Definition get_restaurants : M St resp :=
  cache <- redis_get "restaurants";;
  match cache with
  | Some c => if truthy cache then ret (Json (parse c)) else load_and_cache
  | None => load_and_cache
  end.

(** States the service can reach from an empty Redis: requests to
    GET /restaurants, time passing, writes to the table (POST /restaurants
    and other writers), and the database going up or down. *)
Inductive reachable : St -> Prop :=
| r_init t rs up : reachable (mkSt t ∅ rs up 0)
| r_get s : reachable s -> reachable (fst (get_restaurants s))
| r_advance s dt : reachable s -> (0 <= dt)%Z -> reachable (advance dt s)
| r_table s rs : reachable s -> reachable (set_table rs s)
| r_db_up s b : reachable s -> reachable (set_db_up b s).

(** Concurrent requests.  Each request to GET /restaurants is a thread
    whose handler body is split at its [await]s: the Redis read and the
    branch on it, the database query, and the [SETEX] with the reply.
    The scheduler interleaves these atomic steps. *)
Inductive pc :=
| PStart
| PMiss
| PLoaded (rs : list row)
| PDone (r : outcome resp).

Definition step_pc (p : pc) (s : St) : St * pc :=
  match p with
  | PStart =>
      match live s "restaurants" with
      | Some c => if truthy (Some c) then (s, PDone (Ok (Json (parse c))))
                  else (s, PMiss)
      | None => (s, PMiss)
      end
  | PMiss =>
      match db_select s with
      | (s', Ok rs) => (s', PLoaded rs)
      | (s', Rejected e) => (s', PDone (Rejected e))
      end
  | PLoaded rs =>
      (fst (redis_setEx "restaurants" 60 (stringify rs) s), PDone (Ok (Json rs)))
  | PDone r => (s, PDone r)
  end.

Definition update (th : nat -> pc) (i : nat) (p : pc) : nat -> pc :=
  fun j => if Nat.eqb i j then p else th j.

(** One scheduler step: thread [i] runs up to its next [await]. *)
Definition step (i : nat) (c : St * (nat -> pc)) : St * (nat -> pc) :=
  let (s, th) := c in
  let (s', p') := step_pc (th i) s in
  (s', update th i p').

Fixpoint run (sched : list nat) (c : St * (nat -> pc)) : St * (nat -> pc) :=
  match sched with
  | [] => c
  | i :: rest => run rest (step i c)
  end.

End RestaurantService.

Arguments mkSt {row}.
Arguments now {row}.
Arguments redis {row}.
Arguments restaurants {row}.
Arguments db_up {row}.
Arguments db_reads {row}.
Arguments set_redis {row}.
Arguments set_reads {row}.
Arguments set_db_up {row}.
Arguments set_table {row}.
Arguments advance {row}.
Arguments live {row}.
Arguments redis_get {row}.
Arguments redis_setEx {row}.
Arguments db_select {row}.
Arguments Json {row}.
Arguments stringify {row}.
Arguments load_and_cache {row}.
Arguments get_restaurants {row}.
Arguments PStart {row}.
Arguments PMiss {row}.
Arguments PLoaded {row}.
Arguments PDone {row}.
Arguments step_pc {row}.
Arguments update {row}.
Arguments step {row}.
Arguments run {row}.
Arguments reachable {row}.

End Restaurant.

(* ------------------------------------------------------------------ *)
(** ** JavaScript values carried by request bodies *)

Module Js.

#[local] Set Warnings "-register-all".

Inductive value :=
| Undef
| Null
| Bool (b : bool)
| Num (n : Z)
| Str (s : string)
| Arr (xs : list value)
| Obj (fields : list (string * value)).

(** Property read [o.k]: [undefined] when absent or not an object. *)
Definition get (k : string) (v : value) : value :=
  match v with
  | Obj fs =>
      match List.find (fun f => String.eqb (fst f) k) fs with
      | Some (_, x) => x
      | None => Undef
      end
  | _ => Undef
  end.

End Js.

(* ------------------------------------------------------------------ *)
(** ** [app.use(express.json())]: body-parser's JSON middleware

    Default options: [limit "100kb"], [strict true], [inflate true],
    [type "application/json"].  The middleware runs for every request
    before the routes; on an error it calls [next(err)], which skips every
    later non-error middleware, and Express answers with [err.status]. *)

Module BodyParser.

(** An incoming request as the middleware reads it. *)
Record request := mkRequest {
  path : string;              (* the request path Express matches mounts on *)
  has_body : bool;            (* typeis.hasBody: Transfer-Encoding or Content-Length sent *)
  is_json : bool;             (* Content-Type matches application/json *)
  charset : option string;    (* the charset parameter of Content-Type, lower-cased *)
  encoding : string;          (* Content-Encoding, lower-cased; "identity" when absent *)
  body : string               (* the body bytes as sent *)
}.

(** What the libraries the middleware calls decide: whether iconv-lite
    knows a charset, zlib's inflation of a gzip or deflate body ([None] on
    corrupt data), and whether [JSON.parse] accepts a text. *)
Record libs := mkLibs {
  charset_known : string -> bool;
  inflate : string -> string -> option string;
  json_valid : string -> bool
}.

Inductive verdict :=
| Next                  (* next(): the following middleware runs *)
| Error (status : Z).   (* next(err): Express answers with err.status *)

(** "100kb". *)
Definition limit : Z := 102400.

(** The whitespace of [FIRST_CHAR_REGEXP]: space, tab, LF, CR. *)
Definition is_ws (c : ascii) : bool :=
  let n := nat_of_ascii c in
  (n =? 32)%nat || (n =? 9)%nat || (n =? 10)%nat || (n =? 13)%nat.

Fixpoint first_char (b : string) : option ascii :=
  match b with
  | EmptyString => None
  | String c r => if is_ws c then first_char r else Some c
  end.

(** Strict mode: the first non-whitespace character opens an object or an
    array. *)
Definition strict_ok (b : string) : bool :=
  match first_char b with
  | Some c => Ascii.eqb c "{" || Ascii.eqb c "["
  | None => false
  end.

(** [getCharset(req) || "utf-8"] must start with "utf-" and be known to
    iconv-lite. *)
Definition charset_ok (L : libs) (cs : option string) : bool :=
  match cs with
  | None => true
  | Some c => String.prefix "utf-" c && charset_known L c
  end.

(** The body after content decoding: [None] for an unsupported
    Content-Encoding, [Some None] for data zlib cannot inflate. *)
Definition decode (L : libs) (r : request) : option (option string) :=
  if String.eqb (encoding r) "identity" then Some (Some (body r))
  else if String.eqb (encoding r) "gzip" || String.eqb (encoding r) "deflate"
  then Some (inflate L (encoding r) (body r))
  else None.

(** [jsonParser(req, res, next)]. *)
Definition json (L : libs) (r : request) : verdict :=
  if negb (has_body r && is_json r) then Next
  else if negb (charset_ok L (charset r)) then Error 415
  else
    match decode L r with
    | None => Error 415
    | Some None => Error 400
    | Some (Some b) =>
        if (limit <? Z.of_nat (String.length b))%Z then Error 413
        else if String.eqb b "" then Next          (* req.body = {} *)
        else if negb (strict_ok b) then Error 400
        else if json_valid L b then Next else Error 400
    end.

(** Whether the middleware has read the request stream. *)
Definition consumed (r : request) : bool := has_body r && is_json r.

End BodyParser.

(* ------------------------------------------------------------------ *)
(** ** api-gateway: the [app.use(prefix, createProxyMiddleware(...))] chain *)

Module Gateway.

(** ASCII lower case, as the [i] flag of the mount regexp compares. *)
Definition lower (c : ascii) : ascii :=
  let n := nat_of_ascii c in
  if (65 <=? n)%nat && (n <=? 90)%nat then ascii_of_nat (n + 32) else c.

Fixpoint lowercase (s : string) : string :=
  match s with
  | EmptyString => EmptyString
  | String c r => String (lower c) (lowercase r)
  end.

(** [strip_prefix pre s = Some rest] exactly when [s = pre ++ rest]. *)
Fixpoint strip_prefix (pre s : string) : option string :=
  match pre, s with
  | EmptyString, _ => Some s
  | String c p, String d r => if Ascii.eqb c d then strip_prefix p r else None
  | String _ _, EmptyString => None
  end.

(** Express mounts a middleware at [mount] through the regexp
    [^mount\/?(?=\/|$)] with flag [i]: the path is the mount itself or
    continues with a [/]. *)
Definition mount_matches (mount path : string) : bool :=
  match strip_prefix (lowercase mount) (lowercase path) with
  | Some EmptyString => true
  | Some (String c _) => Ascii.eqb c "/"
  | None => false
  end.

(** The gateway's mount table, in registration order. *)
Definition routes : list (string * string) :=
  [("/auth", "http://auth-service:4001");
   ("/restaurants", "http://restaurant-service:4002");
   ("/orders", "http://order-service:4003");
   ("/payments", "http://payment-service:4004")].

(** Express runs the middleware chain in order; the first proxy whose
    mount matches handles the request and never calls [next]. *)
Fixpoint dispatch (t : list (string * string)) (path : string) : option string :=
  match t with
  | [] => None
  | (mount, target) :: rest =>
      if mount_matches mount path then Some target else dispatch rest path
  end.

Record GW := mkGW {
  gw_now : Z;                                (* wall clock *)
  gw_log : list (string * string * string);  (* transport attempts: (target, path, body sent) *)
  gw_up : string -> string -> string -> bool (* whether an upstream answers such a request *)
}.

Definition gw_advance (dt : Z) (g : GW) : GW :=
  mkGW (gw_now g + dt)%Z (gw_log g) (gw_up g).

Inductive gresp :=
| Proxied (target : string) (ok : bool)   (* upstream reply, or proxy error *)
| NotFound (path : string)                (* finalhandler: Cannot GET path *)
| ParseError (status : Z).                (* finalhandler on express.json()'s error *)

Import BodyParser.

(** The body bytes the proxy pipes upstream: none once [express.json()]
    has read the request stream. *)
Definition sent (r : request) : string := if consumed r then "" else body r.

(** [createProxyMiddleware({ target })]: one outbound request. *)
Definition forward (target : string) (r : request) : M GW gresp :=
  fun g => (mkGW (gw_now g) (gw_log g ++ [(target, path r, sent r)]) (gw_up g),
            Ok (Proxied target (gw_up g target (path r) (sent r)))).

Section Chain.

Variable L : libs.

(** The chain of lines 5-12: [express.json()], then the mounts in order,
    then Express's final handler. *)
Definition handle_in (t : list (string * string)) (r : request) : M GW gresp :=
  match json L r with
  | Error st => ret (ParseError st)
  | Next =>
      match dispatch t (path r) with
      | Some target => forward target r
      | None => ret (NotFound (path r))
      end
  end.

Definition handle (r : request) : M GW gresp := handle_in routes r.

(** Requests handled one after another (the proxies keep no state, so the
    order in which concurrent requests reach them does not matter). *)
Fixpoint handle_all (rs : list request) : M GW (list gresp) :=
  match rs with
  | [] => ret []
  | r :: rest => x <- handle r;; xs <- handle_all rest;; ret (x :: xs)
  end.

End Chain.

(** The resolution rule of the spec, stated on its own: among the mounts
    that match, the longest wins (the earlier one on a tie). *)
Fixpoint longest_aux (t : list (string * string)) (path : string)
    (best : option (nat * string)) : option (nat * string) :=
  match t with
  | [] => best
  | (mount, target) :: rest =>
      if mount_matches mount path then
        match best with
        | Some (n, _) =>
            if (n <? String.length mount)%nat
            then longest_aux rest path (Some (String.length mount, target))
            else longest_aux rest path best
        | None => longest_aux rest path (Some (String.length mount, target))
        end
      else longest_aux rest path best
  end.

Definition longest_route (t : list (string * string)) (path : string) : option string :=
  option_map snd (longest_aux t path None).

End Gateway.

(* ------------------------------------------------------------------ *)
(** ** auth-service: POST /auth/login *)

Module Auth.

Section AuthService.

(** [bcrypt.compareSync] on two strings; the token [jwt.sign(payload,
    secret)] builds for payload [{ id, role }], issue time [iat] and a
    non-empty secret; the text node-postgres sends for a number and for an
    array or object parameter (array literal, [JSON.stringify]);
    [process.env.JWT_SECRET] ([None] when unset); and the signing time
    [Math.floor(Date.now() / 1000)]. *)
Variable bcrypt_check : string -> string -> bool.
Variable jwt_sign : string * string -> Z -> string -> string.
Variable num_text : Z -> string.
Variable json_text : Js.value -> string.
Variable jwt_secret : option string.
Variable iat : Z.

Record user := mkUser {
  u_id : string;
  u_email : string;
  u_password : string;      (* bcrypt hash *)
  u_role : string
}.

Record St := mkSt {
  users : list user;
  db_up : bool
}.

(** node-postgres parameter serialisation ([prepareValue]):
    [null]/[undefined] become SQL NULL, scalars their text, arrays an array
    literal and objects their JSON text. *)
Definition pg_param (v : Js.value) : option string :=
  match v with
  | Js.Undef | Js.Null => None
  | Js.Bool b => Some (if b then "true" else "false")
  | Js.Num n => Some (num_text n)
  | Js.Str s => Some s
  | Js.Arr _ | Js.Obj _ => Some (json_text v)
  end.

(** [SELECT * FROM users WHERE email=$1]: [email = NULL] selects nothing. *)
Definition select_by_email (v : Js.value) : M St (list user) :=
  fun s =>
    if db_up s then
      (s, Ok match pg_param v with
             | None => []
             | Some e => List.filter (fun u => String.eqb (u_email u) e) (users s)
             end)
    else (s, Rejected "ECONNREFUSED").

(** bcryptjs [compareSync(s, hash)] throws unless both are strings. *)
Definition compareSync (pw : Js.value) (hash : string) : M St bool :=
  match pw with
  | Js.Str p => ret (bcrypt_check p hash)
  | _ => fun s => (s, Rejected "Illegal arguments")
  end.

(** jsonwebtoken [sign(payload, secret)] throws when the secret is
    missing or empty. *)
Definition sign (payload : string * string) : M St string :=
  match jwt_secret with
  | Some k => if String.eqb k "" then fun s => (s, Rejected "secretOrPrivateKey must have a value")
              else ret (jwt_sign payload iat k)
  | None => fun s => (s, Rejected "secretOrPrivateKey must have a value")
  end.

Inductive lresp :=
| Status (code : Z)          (* res.sendStatus(code) *)
| Token (token : string).    (* res.json({ token }) *)

(** [app.post("/auth/login", ...)]. *)
Definition login (body : Js.value) : M St lresp :=
  result <- select_by_email (Js.get "email" body);;
  match result with
  | [] => ret (Status 401)
  | user :: _ =>
      ok <- compareSync (Js.get "password" body) (u_password user);;
      if ok then (token <- sign (u_id user, u_role user);; ret (Token token))
      else ret (Status 401)
  end.

End AuthService.

End Auth.

(* ------------------------------------------------------------------ *)
(** ** order-service: POST /orders *)

Module Order.

Section OrderService.

(** [uuid()] (v4): the [n]-th identifier drawn. *)
Variable uuid_of : nat -> string.

Record St := mkSt {
  table_exists : bool;
  orders : list (string * string);     (* rows (id, status) *)
  queue : list (string * string);      (* jobs (name, data.orderId) *)
  uuids_drawn : nat;
  db_up : bool;
  redis_up : bool
}.

Definition db_create_table : M St unit :=
  fun s =>
    if db_up s
    then (mkSt true (orders s) (queue s) (uuids_drawn s) (db_up s) (redis_up s), Ok tt)
    else (s, Rejected "ECONNREFUSED").

Definition uuid : M St string :=
  fun s =>
    (mkSt (table_exists s) (orders s) (queue s) (S (uuids_drawn s)) (db_up s) (redis_up s),
     Ok (uuid_of (uuids_drawn s))).

(** [INSERT INTO orders VALUES($1,$2)]. *)
Definition db_insert (id status : string) : M St unit :=
  fun s =>
    if db_up s && table_exists s
    then (mkSt (table_exists s) (orders s ++ [(id, status)]) (queue s)
               (uuids_drawn s) (db_up s) (redis_up s), Ok tt)
    else (s, Rejected "insert failed").

(** BullMQ [orderQueue.add(name, { orderId })]. *)
Definition queue_add (name orderId : string) : M St unit :=
  fun s =>
    if redis_up s
    then (mkSt (table_exists s) (orders s) (queue s ++ [(name, orderId)])
               (uuids_drawn s) (db_up s) (redis_up s), Ok tt)
    else (s, Rejected "ECONNREFUSED").

Inductive oresp := OrderJson (orderId status : string).

(** [app.post("/orders", ...)]. *)
Definition post_orders : M St oresp :=
  _ <- db_create_table;;
  id <- uuid;;
  _ <- db_insert id "PLACED";;
  _ <- queue_add "order.created" id;;
  ret (OrderJson id "PLACED").

End OrderService.

End Order.

(* ------------------------------------------------------------------ *)
(** ** payment-service: POST /payments *)

Module Payment.

Import BodyParser.

Inductive presp :=
| PayJson (status : string)     (* res.json({ status }) *)
| PayError (status : Z).        (* express.json()'s error, answered by Express *)

(** POST /payments through the chain of the service: [express.json()]
    (line 3), the logger, then
    [app.post("/payments", (req, res) => res.json({ status: ... }))]. *)
Definition post_payments (L : libs) (req : request) : presp :=
  match json L req with
  | Error st => PayError st
  | Next => PayJson "PAYMENT_SUCCESS"
  end.

End Payment.

(* ------------------------------------------------------------------ *)
(** ** restaurant-service: POST /restaurants *)

Module RestaurantWrite.

Import Restaurant.

Section Post.

Variable row : Type.
(** The row [(id, name)] the INSERT stores, [name] being [req.body.name]. *)
Variable mk_row : string -> Js.value -> row.

(** [CREATE TABLE IF NOT EXISTS restaurants(...)]. *)
Definition db_create : M (St row) unit :=
  fun s => if db_up s then (s, Ok tt) else (s, Rejected "ECONNREFUSED").

(** [INSERT INTO restaurants VALUES($1,$2)]: the row joins the table,
    kept here as a list (the order in which [SELECT *] returns rows is left
    to Postgres, so what is read back is stated up to permutation). *)
Definition db_insert (r : row) : M (St row) unit :=
  fun s =>
    if db_up s then (set_table (restaurants s ++ [r]) s, Ok tt)
    else (s, Rejected "ECONNREFUSED").

Inductive presp := IdJson (id : string).

(** [app.post("/restaurants", ...)]; [id] is the value [uuid()] returns. *)
Definition post_restaurants (id : string) (body : Js.value) : M (St row) presp :=
  _ <- db_create;;
  _ <- db_insert (mk_row id (Js.get "name" body));;
  ret (IdJson id).

End Post.

Arguments db_create {row}.
Arguments db_insert {row}.
Arguments post_restaurants {row}.

End RestaurantWrite.

(* ------------------------------------------------------------------ *)
(** ** auth-service: POST /auth/register and the start-up loop *)

Module AuthRegister.

Import Auth.

Section Register.

(** [bcrypt.hash(password, 8)] on a string, node-postgres' text for a
    number and for an array or object parameter. *)
Variable bcrypt_hash : string -> string.
Variable num_text : Z -> string.
Variable json_text : Js.value -> string.

(** JavaScript truthiness of a body field. *)
Definition js_truthy (v : Js.value) : bool :=
  match v with
  | Js.Undef | Js.Null => false
  | Js.Bool b => b
  | Js.Num n => negb (Z.eqb n 0)
  | Js.Str t => negb (String.eqb t "")
  | Js.Arr _ | Js.Obj _ => true
  end.

(** A query parameter as node-postgres sends it; [None] is SQL NULL. *)
Definition pg_value (v : Js.value) : option string :=
  match v with
  | Js.Arr _ | Js.Obj _ => Some (json_text v)
  | _ => pg_param num_text json_text v
  end.

(** bcryptjs [hash(s, rounds)] rejects unless [s] is a string. *)
Definition hash (pw : Js.value) : M St string :=
  match pw with
  | Js.Str p => ret (bcrypt_hash p)
  | _ => fun s => (s, Rejected "Illegal arguments")
  end.

(** [INSERT INTO users VALUES($1,$2,$3,$4)] against
    [id UUID PRIMARY KEY, email TEXT UNIQUE NOT NULL, password TEXT NOT NULL,
     role TEXT NOT NULL]. *)
Definition insert_user (id : string) (email : Js.value) (h : string) (role : Js.value)
  : M St unit :=
  fun s =>
    if negb (db_up s) then (s, Rejected "ECONNREFUSED") else
    match pg_value email, pg_value role with
    | Some e, Some r =>
        if List.existsb (fun u => String.eqb (u_id u) id) (users s)
        then (s, Rejected "duplicate key value violates unique constraint users_pkey")
        else if List.existsb (fun u => String.eqb (u_email u) e) (users s)
        then (s, Rejected "duplicate key value violates unique constraint users_email_key")
        else (mkSt (users s ++ [mkUser id e h r]) (db_up s), Ok tt)
    | _, _ => (s, Rejected "null value violates not-null constraint")
    end.

Inductive rresp := Registered.   (* res.json({ message: "User registered" }) *)

(** [role || "USER"]. *)
Definition role_or_user (role : Js.value) : Js.value :=
  if js_truthy role then role else Js.Str "USER".

(** [app.post("/auth/register", ...)]; [id] is the value [uuid()] returns. *)
Definition register (id : string) (body : Js.value) : M St rresp :=
  h <- hash (Js.get "password" body);;
  _ <- insert_user id (Js.get "email" body) h (role_or_user (Js.get "role" body));;
  ret Registered.

End Register.

End AuthRegister.

Module AuthInit.

Inductive event :=
| Trying                      (* "Trying to connect to DB..." *)
| DbReady                     (* "DB ready" *)
| NotReady (left : nat)       (* "DB not ready, retries left: ..." *)
| Sleep (ms : Z)              (* await setTimeout(delay) *)
| FailedPermanently.          (* "DB connection failed permanently" *)

Inductive init_end :=
| Resolved                    (* initDB() resolves: app.listen(4001) runs *)
| Exit (code : nat).          (* process.exit(code) *)

(** [initDB(retries, delay)]; [db_ok k] is whether the [k]-th
    [CREATE TABLE IF NOT EXISTS users] succeeds, [attempt] the index of the
    next one. *)
Fixpoint init_db (db_ok : nat -> bool) (retries : nat) (delay : Z) (attempt : nat)
  : list event * init_end :=
  match retries with
  | 0 => ([], Resolved)
  | S r =>
      if db_ok attempt then ([Trying; DbReady], Resolved)
      else if Nat.eqb r 0 then ([Trying; NotReady r; FailedPermanently], Exit 1)
      else
        let (evs, e) := init_db db_ok r delay (S attempt) in
        (Trying :: NotReady r :: Sleep delay :: evs, e)
  end.

(** [initDB()] with its defaults, [retries = 10, delay = 3000]. *)
Definition startup (db_ok : nat -> bool) : list event * init_end := init_db db_ok 10 3000%Z 0.

Fixpoint attempts (evs : list event) : nat :=
  match evs with
  | [] => 0
  | Trying :: rest => S (attempts rest)
  | _ :: rest => attempts rest
  end.

Fixpoint slept (evs : list event) : Z :=
  match evs with
  | [] => 0%Z
  | Sleep ms :: rest => (ms + slept rest)%Z
  | _ :: rest => slept rest
  end.

End AuthInit.

(* ------------------------------------------------------------------ *)
(** ** Concrete instances used to exercise the statements *)

Module Fixtures.

Definition unit_json (_ : unit) : string := "{}".
Definition unit_parse (s : string) : list unit :=
  if String.eqb s "[{}]" then [tt] else [].

(** One restaurant row, empty Redis, database up, at t = 0. *)
Definition rs0 : Restaurant.St unit := Restaurant.mkSt 0%Z ∅ [tt] true 0.
Definition rs0_down : Restaurant.St unit := Restaurant.mkSt 0%Z ∅ [tt] false 0.

(** The (id, name) row of a unit table. *)
Definition unit_row (_ : string) (_ : Js.value) : unit := tt.

(** A gateway whose upstreams never answer. *)
Definition gw0 : Gateway.GW := Gateway.mkGW 0%Z [] (fun _ _ _ => false).

(** Libraries that know every charset, leave a compressed body as it is,
    and whose [JSON.parse] accepts only "{}". *)
Definition libs0 : BodyParser.libs :=
  BodyParser.mkLibs (fun _ => true) (fun _ b => Some b) (fun b => String.eqb b "{}").

(** A request with no body, and one sending the truncated JSON text "{". *)
Definition req_nobody (p : string) : BodyParser.request :=
  BodyParser.mkRequest p false false None "identity" "".
Definition req_bad_json (p : string) : BodyParser.request :=
  BodyParser.mkRequest p true true None "identity" "{".

(** The mount table with the [/orders] mount left out. *)
Definition routes_no_orders : list (string * string) :=
  List.filter (fun e => negb (String.eqb (fst e) "/orders")) Gateway.routes.

(** A users table with one account, and a login fixture whose bcrypt
    check accepts the password "secret" for any hash. *)
Definition alice : Auth.user := Auth.mkUser "u1" "a@x.io" "$2a$08$hash" "USER".
Definition auth0 : Auth.St := Auth.mkSt [alice] true.
Definition check_secret (pw _ : string) : bool := String.eqb pw "secret".
Definition sign_dot (payload : string * string) (_ : Z) (key : string) : string :=
  fst payload ++ "." ++ snd payload ++ "." ++ key.
Definition num_dec (n : Z) : string := "n".
Definition login_body (email password : Js.value) : Js.value :=
  Js.Obj [("email", email); ("password", password)].

(** bcrypt fixture: every password hashes to "h"; node-postgres text of an
    array or object parameter. *)
Definition hash_h (_ : string) : string := "h".
Definition json_dummy (_ : Js.value) : string := "{}".

(** order-service with both stores up and no table yet. *)
Definition order0 : Order.St := Order.mkSt false [] [] 0 true true.
Definition uuid_seq (n : nat) : string := "id-0".

End Fixtures.

(* ================================================================== *)
(** * Properties *)

Module RestaurantProofs.

Import Restaurant.

Section Cache.

Variable row : Type.
Variable row_json : row -> string.
Variable parse : string -> list row.

Local Abbreviation St := (St row).
Local Abbreviation stringify := (stringify row_json).
Local Abbreviation get := (get_restaurants row_json parse).
Local Abbreviation reachable := (reachable row_json parse).

Lemma stringify_truthy (rs : list row) : truthy (Some (stringify rs)) = true.
Proof. reflexivity. Qed.

(** The handler either leaves Redis alone or writes the freshly loaded
    rows under "restaurants" with a 60 s expiry. *)
Lemma get_redis_effect (s : St) :
  redis (fst (get s)) = redis s \/
  exists rs, redis (fst (get s)) =
             <["restaurants" := (stringify rs, (now s + 60)%Z)]> (redis s).
Proof.
  unfold get_restaurants, load_and_cache, await, redis_get, db_select, redis_setEx, ret.
  destruct (live s "restaurants") as [c|].
  - destruct (truthy (Some c)); [left; reflexivity|].
    destruct (db_up s); simpl; [right; eexists; reflexivity|left; reflexivity].
  - destruct (db_up s); simpl; [right; eexists; reflexivity|left; reflexivity].
Qed.

(** Every value in Redis was written by the handler: a JSON array text. *)
Lemma reachable_redis_json (s : St) :
  reachable s ->
  forall k v e, redis s !! k = Some (v, e) -> exists rs, v = stringify rs.
Proof.
  induction 1 as [t rs up|s Hr IH|s dt Hr IH Hdt|s rs Hr IH|s b Hr IH];
    intros k v e Hk; simpl in *.
  - rewrite lookup_empty in Hk. discriminate.
  - destruct (get_redis_effect s) as [Heq|[rs Heq]]; rewrite Heq in Hk; [eauto|].
    destruct (decide (k = "restaurants")) as [->|Hne].
    + rewrite lookup_insert_eq in Hk. injection Hk as <- _. eauto.
    + rewrite lookup_insert_ne in Hk by congruence. eauto.
  - eauto.
  - eauto.
  - eauto.
Qed.

Lemma get_cold (s : St) :
  live s "restaurants" = None -> get s = load_and_cache row_json s.
Proof. intros H. unfold get_restaurants, await, redis_get. now rewrite H. Qed.

Lemma get_warm (s : St) (c : string) :
  live s "restaurants" = Some c -> truthy (Some c) = true ->
  get s = (s, Ok (Json (parse c))).
Proof. intros H Ht. unfold get_restaurants, await, redis_get. now rewrite H, Ht. Qed.

Lemma load_up (s : St) :
  db_up s = true ->
  load_and_cache row_json s =
  (mkSt (now s)
        (<["restaurants" := (stringify (restaurants s), (now s + 60)%Z)]> (redis s))
        (restaurants s) (db_up s) (S (db_reads s)),
   Ok (Json (restaurants s))).
Proof.
  intros H. destruct s; simpl in H; subst.
  unfold load_and_cache, await, db_select, redis_setEx, ret. reflexivity.
Qed.

Lemma load_down (s : St) :
  db_up s = false ->
  load_and_cache row_json s = (set_reads (S (db_reads s)) s, Rejected "ECONNREFUSED").
Proof. intros H. unfold load_and_cache, await, db_select. now rewrite H. Qed.

Lemma load_reads (s : St) :
  db_reads (fst (load_and_cache row_json s)) = S (db_reads s).
Proof.
  destruct (db_up s) eqn:H; [rewrite (load_up s H)|rewrite (load_down s H)]; reflexivity.
Qed.

Lemma live_expired (s : St) c e :
  redis s !! "restaurants" = Some (c, e) -> (e <= now s)%Z -> live s "restaurants" = None.
Proof.
  intros Hk He. unfold live. rewrite Hk.
  destruct (Z.ltb_spec (now s) e); [lia|reflexivity].
Qed.

(** C1: a live entry under the cached key is answered from Redis: the
    response is [JSON.parse] of the stored text, the state (with its count
    of database reads) is left as it was. *)
Theorem get_restaurants_live_hit (s : St) (c : string) (e : Z) :
  reachable s ->
  redis s !! "restaurants" = Some (c, e) ->
  (now s < e)%Z ->
  get s = (s, Ok (Json (parse c))) /\ db_reads (fst (get s)) = db_reads s.
Proof.
  intros Hr Hk Hlt.
  destruct (reachable_redis_json s Hr _ _ _ Hk) as [rs ->].
  assert (Hl : live s "restaurants" = Some (stringify rs)).
  { unfold live. rewrite Hk. destruct (Z.ltb_spec (now s) e); [reflexivity|lia]. }
  rewrite (get_warm s _ Hl (stringify_truthy rs)). split; reflexivity.
Qed.

(** C2: a cold read loads once and stores the rows for 60 s; a read [dt]
    seconds later is served from the cache (no load) exactly when
    [dt < 60], and loads again otherwise; an expired entry gives the same
    reply and the same number of loads as an absent one. *)
Theorem get_restaurants_ttl (s : St) (dt : Z) :
  db_up s = true ->
  live s "restaurants" = None ->
  (0 <= dt)%Z ->
  let s1 := fst (get s) in
  let s2 := advance dt s1 in
  db_reads s1 = S (db_reads s) /\
  snd (get s) = Ok (Json (restaurants s)) /\
  redis s1 !! "restaurants" = Some (stringify (restaurants s), (now s + 60)%Z) /\
  ((dt < 60)%Z -> get s2 = (s2, Ok (Json (parse (stringify (restaurants s)))))) /\
  ((60 <= dt)%Z ->
     db_reads (fst (get s2)) = S (db_reads s2) /\
     snd (get s2) = Ok (Json (restaurants s))) /\
  (forall (t : St) c e,
     redis t !! "restaurants" = Some (c, e) -> (e <= now t)%Z ->
     let t' := set_redis (delete "restaurants" (redis t)) t in
     snd (get t) = snd (get t') /\ db_reads (fst (get t)) = db_reads (fst (get t'))).
Proof.
  intros Hup Hcold Hdt. cbv zeta.
  rewrite (get_cold s Hcold), (load_up s Hup). cbn [fst snd].
  split; [reflexivity|]. split; [reflexivity|].
  split; [simpl; apply lookup_insert_eq|].
  split; [|split].
  - intros Hlt. apply get_warm; [|reflexivity].
    unfold live, advance. simpl. rewrite lookup_insert_eq.
    destruct (Z.ltb_spec (now s + dt) (now s + 60)); [reflexivity|lia].
  - intros Hge.
    assert (Hl : live (advance dt (mkSt (now s)
                  (<["restaurants" := (stringify (restaurants s), (now s + 60)%Z)]> (redis s))
                  (restaurants s) (db_up s) (S (db_reads s)))) "restaurants" = None).
    { unfold live, advance. simpl. rewrite lookup_insert_eq.
      destruct (Z.ltb_spec (now s + dt) (now s + 60)); [lia|reflexivity]. }
    rewrite (get_cold _ Hl), load_up by (simpl; exact Hup). split; reflexivity.
  - intros t c e Hk He. cbv zeta.
    assert (Ht' : live (set_redis (delete "restaurants" (redis t)) t) "restaurants" = None).
    { unfold live, set_redis. simpl. now rewrite lookup_delete_eq. }
    rewrite (get_cold t (live_expired t c e Hk He)), (get_cold _ Ht').
    destruct t as [n r rs up k]; simpl in *.
    destruct up; unfold load_and_cache, await, db_select, redis_setEx, ret; simpl; split; reflexivity.
Qed.

(** C7: on a cold key with the database failing, the handler rejects with
    the query's error after exactly one load; Redis is untouched, the key
    stays cold, and the next request (at any later time, database up or
    not) runs the load again. *)
Theorem get_restaurants_loader_failure (s : St) :
  db_up s = false ->
  live s "restaurants" = None ->
  get s = (set_reads (S (db_reads s)) s, Rejected "ECONNREFUSED") /\
  redis (fst (get s)) = redis s /\
  (forall (dt : Z) (b : bool), (0 <= dt)%Z ->
     let s' := set_db_up b (advance dt (fst (get s))) in
     live s' "restaurants" = None /\ db_reads (fst (get s')) = S (db_reads s')).
Proof.
  intros Hdown Hcold.
  rewrite (get_cold s Hcold), (load_down s Hdown). cbn [fst snd].
  split; [reflexivity|]. split; [reflexivity|].
  intros dt b Hdt. cbv zeta.
  assert (Hl : live (set_db_up b (advance dt (set_reads (S (db_reads s)) s))) "restaurants" = None).
  { revert Hcold. unfold live; simpl.
    destruct (redis s !! "restaurants") as [[v e]|]; [|reflexivity].
    destruct (Z.ltb_spec (now s) e); [discriminate|].
    destruct (Z.ltb_spec (now s + dt) e); [lia|reflexivity]. }
  split; [exact Hl|]. rewrite (get_cold _ Hl). apply load_reads.
Qed.

(** ** Interleaved requests *)

Local Abbreviation run := (run row_json parse).
Local Abbreviation step := (step row_json parse).

Lemma run_app (l1 l2 : list nat) (c : St * (nat -> pc row)) :
  run (l1 ++ l2) c = run l2 (run l1 c).
Proof. revert c. induction l1 as [|i l1 IH]; intros c; simpl; auto. Qed.

Lemma step_unfold (i : nat) (t : St) (th : nat -> pc row) :
  step i (t, th) = (fst (step_pc row_json parse (th i) t), update th i (snd (step_pc row_json parse (th i) t))).
Proof. unfold Restaurant.step. now destruct (step_pc row_json parse (th i) t). Qed.

Lemma update_eq (th : nat -> pc row) i p : update th i p i = p.
Proof. unfold update. now rewrite Nat.eqb_refl. Qed.

Lemma update_ne (th : nat -> pc row) i j p : i <> j -> update th i p j = th j.
Proof. intros H. unfold update. destruct (Nat.eqb_spec i j); [contradiction|reflexivity]. Qed.

(** How many steps thread [j] has been scheduled for in [l]. *)
Definition cnt (l : list nat) (j : nat) : nat := count_occ Nat.eq_dec l j.

(** A thread's program counter after [k] steps on a cold key, each query
    answered with [rows]. *)
Definition pc_after (rows : list row) (k : nat) : pc row :=
  match k with
  | 0 => PStart
  | 1 => PMiss
  | 2 => PLoaded rows
  | _ => PDone (Ok (Json rows))
  end.

(** Whether a thread that took [k] steps has queried the database. *)
Definition queried (k : nat) : nat := if (2 <=? k)%nat then 1 else 0.

Definition total (N : nat) (l : list nat) : nat :=
  list_sum (map (fun j => queried (cnt l j)) (seq 0 N)).

Definition inv (s : St) (N : nat) (l : list nat) (c : St * (nat -> pc row)) : Prop :=
  now (fst c) = now s /\ restaurants (fst c) = restaurants s /\ db_up (fst c) = true /\
  db_reads (fst c) = (db_reads s + total N l)%nat /\
  forall j, snd c j = pc_after (restaurants s) (cnt l j).

Lemma cnt_snoc (l : list nat) (i j : nat) :
  cnt (l ++ [i]) j = (cnt l j + if Nat.eq_dec i j then 1 else 0)%nat.
Proof. unfold cnt. rewrite count_occ_app. simpl. destruct (Nat.eq_dec i j); reflexivity. Qed.

Lemma sum_point (f g : nat -> nat) (i N : nat) :
  (i < N)%nat -> (forall j, j <> i -> f j = g j) ->
  (list_sum (map f (seq 0 N)) + g i = list_sum (map g (seq 0 N)) + f i)%nat.
Proof.
  intros Hi Hfg. induction N as [|N IH]; [lia|].
  rewrite seq_S, !map_app, !list_sum_app. simpl.
  destruct (Nat.eq_dec i N) as [->|Hne].
  - assert (map f (seq 0 N) = map g (seq 0 N)) as ->; [|lia].
    apply map_ext_in. intros j Hj. apply in_seq in Hj. apply Hfg. lia.
  - rewrite (Hfg N) by congruence. specialize (IH ltac:(lia)). lia.
Qed.

Lemma sum_const (f : nat -> nat) (a N : nat) :
  (forall j, (j < N)%nat -> f j = a) -> list_sum (map f (seq 0 N)) = (a * N)%nat.
Proof.
  induction N as [|N IH]; intros Hf; [simpl; lia|].
  rewrite seq_S, map_app, list_sum_app. simpl. rewrite (Hf N) by lia.
  rewrite IH by (intros j Hj; apply Hf; lia). lia.
Qed.

Lemma total_snoc (N : nat) (l : list nat) (i : nat) :
  (i < N)%nat ->
  (total N (l ++ [i]) + queried (cnt l i) = total N l + queried (S (cnt l i)))%nat.
Proof.
  intros Hi. unfold total.
  pose proof (sum_point (fun j => queried (cnt (l ++ [i]) j)) (fun j => queried (cnt l j)) i N Hi)
    as H. cbv beta in H. rewrite cnt_snoc in H. destruct (Nat.eq_dec i i) as [_|]; [|congruence].
  rewrite Nat.add_1_r in H. apply H.
  intros j Hj. rewrite cnt_snoc. destruct (Nat.eq_dec i j); [congruence|]. now rewrite Nat.add_0_r.
Qed.

(** One scheduled step keeps the invariant, given that a thread still to
    read Redis finds the key cold; only a thread's third step (its
    [SETEX]) writes Redis. *)
Lemma inv_step (s : St) (N : nat) (l : list nat) (c : St * (nat -> pc row)) (i : nat) :
  (i < N)%nat -> inv s N l c ->
  (cnt l i = 0%nat -> live (fst c) "restaurants" = None) ->
  inv s N (l ++ [i]) (step i c) /\
  ((cnt l i <= 1)%nat -> redis (fst (step i c)) = redis (fst c)).
Proof.
  intros Hi [Hn [Hr [Hu [Hd Hth]]]] Hcold. destruct c as [t th]. cbn [fst snd] in *.
  pose proof (total_snoc N l i Hi) as Htot.
  rewrite step_unfold, Hth. cbn [fst snd].
  assert (Hpc : forall p, (forall j, update th i p j =
                  if Nat.eq_dec i j then p else pc_after (restaurants s) (cnt l j))).
  { intros p j. destruct (Nat.eq_dec i j) as [<-|Hne]; [apply update_eq|].
    rewrite update_ne by exact Hne. apply Hth. }
  destruct (cnt l i) as [|[|[|k]]] eqn:Hk; cbn [pc_after step_pc].
  - rewrite (Hcold eq_refl). cbn [fst snd].
    split; [|reflexivity].
    split; [exact Hn|]. split; [exact Hr|]. split; [exact Hu|].
    split; [unfold queried in Htot; cbn [Nat.leb] in Htot; cbn [fst snd];
           unfold redis_setEx, set_reads, set_redis; cbn [fst snd db_reads]; lia|].
    intros j. cbn [fst snd]. rewrite Hpc. rewrite cnt_snoc.
    destruct (Nat.eq_dec i j) as [<-|]; [now rewrite Hk|now rewrite Nat.add_0_r].
  - unfold db_select. rewrite Hu. cbn [fst snd].
    split; [|reflexivity].
    split; [exact Hn|]. split; [exact Hr|]. split; [exact Hu|].
    split; [unfold queried in Htot; cbn [Nat.leb] in Htot; cbn [fst snd];
           unfold redis_setEx, set_reads, set_redis; cbn [fst snd db_reads]; lia|].
    intros j. cbn [fst snd]. rewrite Hpc. rewrite cnt_snoc, Hr.
    destruct (Nat.eq_dec i j) as [<-|]; [now rewrite Hk|now rewrite Nat.add_0_r].
  - cbn [fst snd]. split; [|lia].
    split; [exact Hn|]. split; [exact Hr|]. split; [exact Hu|].
    split; [unfold queried in Htot; cbn [Nat.leb] in Htot; cbn [fst snd];
           unfold redis_setEx, set_reads, set_redis; cbn [fst snd db_reads]; lia|].
    intros j. cbn [fst snd]. rewrite Hpc. rewrite cnt_snoc.
    destruct (Nat.eq_dec i j) as [<-|]; [now rewrite Hk|now rewrite Nat.add_0_r].
  - cbn [fst snd]. split; [|lia].
    split; [exact Hn|]. split; [exact Hr|]. split; [exact Hu|].
    split; [unfold queried in Htot; cbn [Nat.leb] in Htot; cbn [fst snd];
           unfold redis_setEx, set_reads, set_redis; cbn [fst snd db_reads]; lia|].
    intros j. cbn [fst snd]. rewrite Hpc. rewrite cnt_snoc.
    destruct (Nat.eq_dec i j) as [<-|]; [now rewrite Hk|now rewrite Nat.add_0_r].
Qed.

Lemma live_same (t u : St) (k : string) :
  redis t = redis u -> now t = now u -> live t k = live u k.
Proof. intros Hr Hn. unfold live. now rewrite Hr, Hn. Qed.

(** While no thread has taken its third step, Redis is untouched. *)
Lemma reading_phase (s : St) (N : nat) (l : list nat) :
  live s "restaurants" = None -> db_up s = true ->
  Forall (fun i => i < N)%nat l -> (forall j, cnt l j <= 2)%nat ->
  inv s N l (run l (s, fun _ => PStart)) /\ redis (fst (run l (s, fun _ => PStart))) = redis s.
Proof.
  intros Hcold Hup. induction l as [|i l IH] using rev_ind; intros Hall Hle.
  - split; [|reflexivity]. split; [reflexivity|]. split; [reflexivity|]. split; [exact Hup|].
    split; [|reflexivity]. simpl. unfold total.
    rewrite (sum_const _ 0) by reflexivity. lia.
  - apply Forall_app in Hall as [Hall Hi]. inversion Hi as [|? ? Hi' _]; subst.
    assert (Hle' : forall j, (cnt l j <= 2)%nat).
    { intros j. specialize (Hle j). rewrite cnt_snoc in Hle. lia. }
    destruct (IH Hall Hle') as [Hinv Hred].
    assert (Hi1 : (cnt l i <= 1)%nat).
    { specialize (Hle i). rewrite cnt_snoc in Hle. destruct (Nat.eq_dec i i); [lia|congruence]. }
    rewrite run_app. simpl (run [i] _).
    destruct (inv_step s N l _ i Hi' Hinv) as [Hinv' Hred'].
    + intros _. rewrite (live_same _ s _ Hred (proj1 Hinv)). exact Hcold.
    + split; [exact Hinv'|]. rewrite (Hred' Hi1). exact Hred.
Qed.

(** Once every thread has read Redis, the remaining steps never read it. *)
Lemma finishing_phase (s : St) (N : nat) (l2 : list nat) :
  forall l c, inv s N l c -> (forall j, (j < N)%nat -> 1 <= cnt l j)%nat ->
  Forall (fun i => i < N)%nat l2 ->
  inv s N (l ++ l2) (run l2 c).
Proof.
  induction l2 as [|i l2 IH]; intros l c Hinv Hstarted Hall.
  - now rewrite app_nil_r.
  - inversion Hall as [|? ? Hi Hall']; subst. simpl.
    destruct (inv_step s N l c i Hi Hinv) as [Hinv' _].
    { intros H0. specialize (Hstarted i Hi). lia. }
    replace (l ++ i :: l2)%list with ((l ++ [i]) ++ l2)%list by now rewrite <- app_assoc.
    apply IH; [exact Hinv'| |exact Hall'].
    intros j Hj. rewrite cnt_snoc. specialize (Hstarted j Hj). lia.
Qed.

(** C3 (as the code behaves): there is no single-flight.  For any
    interleaving of [N] requests in which every request reads the cold key
    ([sched1] schedules each thread at least once) before any request runs
    its [SETEX] (no thread is scheduled three times in [sched1]), each
    request runs the query: once all have finished the loader has run [N]
    times, and with the table unchanged all [N] reply with the same rows. *)
Theorem cold_readers_all_load (s : St) (N : nat) (sched1 sched2 : list nat) :
  live s "restaurants" = None -> db_up s = true ->
  Forall (fun i => i < N)%nat (sched1 ++ sched2) ->
  (forall i, (i < N)%nat -> 1 <= count_occ Nat.eq_dec sched1 i)%nat ->
  (forall i, count_occ Nat.eq_dec sched1 i <= 2)%nat ->
  (forall i, (i < N)%nat -> 3 <= count_occ Nat.eq_dec (sched1 ++ sched2) i)%nat ->
  let c := run (sched1 ++ sched2) (s, fun _ => PStart) in
  db_reads (fst c) = (db_reads s + N)%nat /\
  forall i, (i < N)%nat -> snd c i = PDone (Ok (Json (restaurants s))).
Proof.
  intros Hcold Hup Hall Hstarted Hle Hdone. cbv zeta.
  apply Forall_app in Hall as [Hall1 Hall2].
  destruct (reading_phase s N sched1 Hcold Hup Hall1 Hle) as [Hinv1 _].
  pose proof (finishing_phase s N sched2 sched1 _ Hinv1 Hstarted Hall2) as Hinv.
  rewrite run_app. destruct Hinv as [_ [_ [_ [Hd Hth]]]].
  split.
  - rewrite Hd. unfold total. rewrite (sum_const _ 1).
    + lia.
    + intros j Hj. specialize (Hdone j Hj). unfold queried, cnt.
      destruct (Nat.leb_spec 2 (count_occ Nat.eq_dec (sched1 ++ sched2) j)); [reflexivity|lia].
  - intros i Hi. rewrite Hth. specialize (Hdone i Hi). unfold cnt.
    destruct (count_occ Nat.eq_dec (sched1 ++ sched2) i) as [|[|[|k]]]; [lia|lia|lia|reflexivity].
Qed.

End Cache.

Import Fixtures.

Lemma get_restaurants_live_hit_witness :
  let s1 := fst (get_restaurants unit_json unit_parse rs0) in
  get_restaurants unit_json unit_parse s1 = (s1, Ok (Json (unit_parse "[{}]"))) /\
  db_reads (fst (get_restaurants unit_json unit_parse s1)) = db_reads s1.
Proof.
  cbv zeta. apply (get_restaurants_live_hit unit unit_json unit_parse _ "[{}]" 60%Z).
  - apply r_get, r_init.
  - vm_compute. reflexivity.
  - vm_compute. reflexivity.
Defined.

Lemma get_restaurants_ttl_witness :
  let s1 := fst (get_restaurants unit_json unit_parse rs0) in
  let s2 := advance 30%Z s1 in
  get_restaurants unit_json unit_parse s2 =
  (s2, Ok (Json (unit_parse (stringify unit_json [tt])))).
Proof.
  cbv zeta.
  destruct (get_restaurants_ttl unit unit_json unit_parse rs0 30%Z) as [_ [_ [_ [H _]]]].
  - reflexivity.
  - vm_compute. reflexivity.
  - lia.
  - apply H. lia.
Defined.

(** The scenario of the spec, run on the code: loads at t = 0 and at
    t = 61, none at t = 30. *)
Example ttl_scenario :
  let s1 := fst (get_restaurants unit_json unit_parse rs0) in
  let s2 := fst (get_restaurants unit_json unit_parse (advance 30%Z s1)) in
  let s3 := fst (get_restaurants unit_json unit_parse (advance 31%Z s2)) in
  (db_reads s1, db_reads s2, db_reads s3) = (1%nat, 1%nat, 2%nat).
Proof. vm_compute. reflexivity. Qed.

(** C3 refuted: two requests on a cold key, interleaved at their awaits
    (both read Redis, then both query), run the query twice. *)
Lemma two_cold_requests_load_twice :
  db_reads (fst (run unit_json unit_parse [0; 1; 0; 1; 0; 1]%nat (rs0, fun _ => PStart)))
  = 2%nat /\
  db_reads (fst (run unit_json unit_parse [0; 1; 0; 1; 0; 1]%nat (rs0, fun _ => PStart)))
  <> 1%nat.
Proof. vm_compute. split; [reflexivity|discriminate]. Qed.

(** Two requests interleaved as Node runs them (each reads Redis, then
    each queries, then each writes): both load. *)
Lemma cold_readers_all_load_witness :
  let c := run unit_json unit_parse ([0; 1; 0; 1] ++ [0; 1])%list (rs0, fun _ => PStart) in
  db_reads (fst c) = 2%nat /\
  forall i, (i < 2)%nat -> snd c i = PDone (Ok (Json [tt])).
Proof.
  apply (cold_readers_all_load unit unit_json unit_parse rs0 2 [0; 1; 0; 1]%nat [0; 1]%nat).
  - reflexivity.
  - reflexivity.
  - repeat constructor.
  - intros i Hi. destruct i as [|[|i]]; [vm_compute; lia|vm_compute; lia|lia].
  - intros i. cbn [count_occ]. repeat destruct (Nat.eq_dec _ i); lia.
  - intros i Hi. destruct i as [|[|i]]; [vm_compute; lia|vm_compute; lia|lia].
Defined.

Lemma get_restaurants_loader_failure_witness :
  get_restaurants unit_json unit_parse rs0_down =
  (set_reads 1%nat rs0_down, Rejected "ECONNREFUSED") /\
  redis (fst (get_restaurants unit_json unit_parse rs0_down)) = redis rs0_down /\
  (forall (dt : Z) (b : bool), (0 <= dt)%Z ->
     let s' := set_db_up b (advance dt (fst (get_restaurants unit_json unit_parse rs0_down))) in
     live s' "restaurants" = None /\
     db_reads (fst (get_restaurants unit_json unit_parse s')) = S (db_reads s')).
Proof.
  apply (get_restaurants_loader_failure unit unit_json unit_parse rs0_down); reflexivity.
Defined.

End RestaurantProofs.

Module GatewayProofs.

Import BodyParser Gateway Fixtures.

(** Two strings that are both prefixes of one string are prefixes of one
    another. *)
Lemma strip_prefix_compat (a b x r1 r2 : string) :
  strip_prefix a x = Some r1 -> strip_prefix b x = Some r2 ->
  (exists u, strip_prefix a b = Some u) \/ (exists u, strip_prefix b a = Some u).
Proof.
  revert b x r1 r2. induction a as [|c a IH]; intros b x r1 r2 H1 H2.
  - left. eauto.
  - destruct x as [|d x]; [discriminate|].
    destruct b as [|e b]; [right; eauto|].
    simpl in H1, H2.
    destruct (Ascii.eqb_spec c d) as [->|]; [|discriminate].
    destruct (Ascii.eqb_spec e d) as [->|]; [|discriminate].
    simpl. rewrite Ascii.eqb_refl. eauto.
Qed.

(** Whether one mount is a prefix of the other (ignoring case). *)
Definition overlapping (a b : string) : bool :=
  match strip_prefix (lowercase a) (lowercase b), strip_prefix (lowercase b) (lowercase a) with
  | None, None => false
  | _, _ => true
  end.

Lemma mount_matches_prefix (m p : string) :
  mount_matches m p = true -> exists r, strip_prefix (lowercase m) (lowercase p) = Some r.
Proof. unfold mount_matches. destruct (strip_prefix _ _); [eauto|discriminate]. Qed.

Lemma both_match_overlapping (a b p : string) :
  mount_matches a p = true -> mount_matches b p = true -> overlapping a b = true.
Proof.
  intros Ha Hb.
  destruct (mount_matches_prefix _ _ Ha) as [r1 H1], (mount_matches_prefix _ _ Hb) as [r2 H2].
  unfold overlapping.
  destruct (strip_prefix_compat _ _ _ _ _ H1 H2) as [[u Hu]|[u Hu]]; rewrite Hu;
    [reflexivity|destruct (strip_prefix (lowercase a) (lowercase b)); reflexivity].
Qed.

Ltac no_two_mounts :=
  match goal with
  | Ha : mount_matches ?a ?p = true, Hb : mount_matches ?b ?p = true |- _ =>
      assert_fails (unify a b);
      let H := fresh in
      pose proof (both_match_overlapping a b p Ha Hb) as H; vm_compute in H; discriminate H
  end.

(** C6 (as the code behaves): a request that passes [express.json()] is
    routed by the first matching mount, which for the gateway's table is
    the longest matching one, and a path no mount matches gets Express's
    not-found reply with no outbound request; with [/orders] unmounted,
    "/orders/123" is such a path.  A request the body parser rejects is
    answered with the parser's status and never routed. *)
Theorem gateway_longest_prefix_route (L : libs) :
  (forall (g : GW) (r : request),
     handle L r g =
     match json L r with
     | Error st => (g, Ok (ParseError st))
     | Next =>
         match longest_route routes (path r) with
         | Some target => forward target r g
         | None => (g, Ok (NotFound (path r)))
         end
     end) /\
  (forall (g : GW) (r : request),
     path r = "/orders/123" -> json L r = Next ->
     longest_route routes_no_orders (path r) = None /\
     handle_in L routes_no_orders r g = (g, Ok (NotFound "/orders/123"))).
Proof.
  split.
  - intros g r.
    assert (Hd : dispatch routes (path r) = longest_route routes (path r)).
    { unfold longest_route, routes. cbn [dispatch longest_aux].
      destruct (mount_matches "/auth" (path r)) eqn:E1;
      destruct (mount_matches "/restaurants" (path r)) eqn:E2;
      destruct (mount_matches "/orders" (path r)) eqn:E3;
      destruct (mount_matches "/payments" (path r)) eqn:E4;
      try no_two_mounts; reflexivity. }
    unfold handle, handle_in. rewrite Hd.
    destruct (json L r); [|reflexivity].
    destruct (longest_route routes (path r)); reflexivity.
  - intros g r Hp Hj. rewrite Hp. split; [vm_compute; reflexivity|].
    unfold handle_in. rewrite Hj, Hp. vm_compute. reflexivity.
Qed.

(** Whether [express.json()] lets a request through to the proxies. *)
Definition passes (L : libs) (r : request) : bool :=
  match json L r with Next => true | Error _ => false end.

(** What a batch of requests sends upstream and what it answers. *)
Definition attempts (L : libs) (rs : list request) : list (string * string * string) :=
  flat_map (fun r => match json L r with
                     | Next =>
                         match dispatch routes (path r) with
                         | Some t => [(t, path r, sent r)]
                         | None => []
                         end
                     | Error _ => []
                     end) rs.

Definition reply (L : libs) (g : GW) (r : request) : gresp :=
  match json L r with
  | Error st => ParseError st
  | Next =>
      match dispatch routes (path r) with
      | Some t => Proxied t (gw_up g t (path r) (sent r))
      | None => NotFound (path r)
      end
  end.

Lemma handle_all_closed (L : libs) (rs : list request) (g : GW) :
  handle_all L rs g =
  (mkGW (gw_now g) (gw_log g ++ attempts L rs) (gw_up g), Ok (map (reply L g) rs)).
Proof.
  revert g. induction rs as [|r rs IH]; intros g.
  - destruct g; simpl. now rewrite app_nil_r.
  - change (attempts L (r :: rs)) with
      ((match json L r with
        | Next => match dispatch routes (path r) with
                  | Some t => [(t, path r, sent r)] | None => [] end
        | Error _ => [] end) ++ attempts L rs)%list.
    change (handle_all L (r :: rs)) with
      (x <- handle L r;; xs <- handle_all L rs;; ret (x :: xs)).
    change (map (reply L g) (r :: rs)) with (reply L g r :: map (reply L g) rs).
    unfold reply at 1, handle, handle_in.
    destruct (json L r).
    + destruct (dispatch routes (path r)) as [t|].
      * unfold forward, await. rewrite IH. cbn [gw_now gw_log gw_up]. unfold ret.
        rewrite <- app_assoc. reflexivity.
      * unfold ret, await. rewrite IH. destruct g; reflexivity.
    + unfold ret, await. rewrite IH. destruct g; reflexivity.
Qed.

(** C4 (as the code behaves): no breaker state is kept.  A request under a
    mounted prefix that passes [express.json()] makes exactly one outbound
    attempt to its fixed target and returns the upstream's outcome,
    whatever failures the log already holds; the only state change is the
    recorded attempt.  A request the parser rejects gets its 400, 413 or
    415 with no attempt. *)
Theorem gateway_always_forwards (L : libs) (g : GW) (r : request) (target : string) :
  dispatch routes (path r) = Some target ->
  handle L r g =
  match json L r with
  | Next =>
      (mkGW (gw_now g) (gw_log g ++ [(target, path r, sent r)]) (gw_up g),
       Ok (Proxied target (gw_up g target (path r) (sent r))))
  | Error st => (g, Ok (ParseError st))
  end.
Proof. intros H. unfold handle, handle_in. destruct (json L r); [rewrite H|]; reflexivity. Qed.

(** C5 (as the code behaves): there is no half-open trial either.  After
    any history and any elapsed time [dt], a batch of concurrent requests
    to mounted paths sends one outbound request for every request in it
    that passes [express.json()], and each gets its upstream's outcome (the
    others their parser status). *)
Theorem gateway_no_trial_limit (L : libs) (g : GW) (dt : Z) (rs : list request) :
  Forall (fun r => dispatch routes (path r) <> None) rs ->
  length (attempts L rs) = length (List.filter (passes L) rs) /\
  handle_all L rs (gw_advance dt g) =
  (mkGW (gw_now g + dt)%Z (gw_log g ++ attempts L rs) (gw_up g),
   Ok (map (reply L g) rs)).
Proof.
  intros Hall. split.
  - induction Hall as [|r rs Hr _ IH]; [reflexivity|].
    change (attempts L (r :: rs)) with
      ((match json L r with
        | Next => match dispatch routes (path r) with
                  | Some t => [(t, path r, sent r)] | None => [] end
        | Error _ => [] end) ++ attempts L rs)%list.
    rewrite length_app. cbn [List.filter]. unfold passes at 1.
    destruct (json L r); [|exact IH].
    destruct (dispatch routes (path r)); [simpl; lia|congruence].
  - rewrite handle_all_closed. reflexivity.
Qed.

(** Five failed requests to the order service. *)
Definition gw_after_failures : GW :=
  fst (handle_all libs0 (repeat (req_nobody "/orders/1") 5) gw0).

(** C4 refuted: after five consecutive failures the sixth request is
    still sent upstream (the log grows) and answered with the proxy's
    result, not short-circuited. *)
Lemma sixth_request_still_forwarded :
  length (gw_log gw_after_failures) = 5%nat /\
  handle libs0 (req_nobody "/orders/1") gw_after_failures =
  (mkGW 0%Z (repeat ("http://order-service:4003", "/orders/1", "") 6) (fun _ _ _ => false),
   Ok (Proxied "http://order-service:4003" false)).
Proof. split; reflexivity. Qed.

(** C5 refuted: after the failures and a 30 s wait, two concurrent
    requests both go upstream. *)
Lemma two_requests_after_cooldown_both_forwarded :
  gw_log (fst (handle_all libs0 [req_nobody "/orders/1"; req_nobody "/orders/2"]
                 (gw_advance 30%Z gw_after_failures))) =
  (repeat ("http://order-service:4003", "/orders/1", "") 5 ++
   [("http://order-service:4003", "/orders/1", ""); ("http://order-service:4003", "/orders/2", "")])%list.
Proof. reflexivity. Qed.

(** C6 refuted: a path no mount matches, sent with a malformed JSON body,
    gets [express.json()]'s 400 rather than the not-found reply (still with
    no outbound request). *)
Lemma unmatched_bad_json_gets_400 :
  dispatch routes "/menu" = None /\
  handle libs0 (req_bad_json "/menu") gw0 = (gw0, Ok (ParseError 400)) /\
  handle libs0 (req_bad_json "/menu") gw0 <> (gw0, Ok (NotFound "/menu")).
Proof. split; [reflexivity|]. split; [reflexivity|discriminate]. Qed.

Lemma gateway_always_forwards_witness :
  handle libs0 (req_nobody "/orders/1") gw_after_failures =
  (mkGW (gw_now gw_after_failures)
        (gw_log gw_after_failures ++ [("http://order-service:4003", "/orders/1", "")])
        (gw_up gw_after_failures),
   Ok (Proxied "http://order-service:4003"
               (gw_up gw_after_failures "http://order-service:4003" "/orders/1" ""))).
Proof. apply (gateway_always_forwards libs0 gw_after_failures (req_nobody "/orders/1")). reflexivity. Defined.

Lemma gateway_no_trial_limit_witness :
  length (attempts libs0 [req_nobody "/orders/1"; req_bad_json "/orders/2"]) = 1%nat /\
  handle_all libs0 [req_nobody "/orders/1"; req_bad_json "/orders/2"]
    (gw_advance 30%Z gw_after_failures) =
  (mkGW (gw_now gw_after_failures + 30)%Z
        (gw_log gw_after_failures ++ attempts libs0 [req_nobody "/orders/1"; req_bad_json "/orders/2"])
        (gw_up gw_after_failures),
   Ok (map (reply libs0 gw_after_failures) [req_nobody "/orders/1"; req_bad_json "/orders/2"])).
Proof.
  destruct (gateway_no_trial_limit libs0 gw_after_failures 30%Z
              [req_nobody "/orders/1"; req_bad_json "/orders/2"]) as [H1 H2].
  - repeat constructor; vm_compute; discriminate.
  - split; [rewrite H1; reflexivity|exact H2].
Defined.

Lemma gateway_longest_prefix_route_witness :
  longest_route routes_no_orders (path (req_nobody "/orders/123")) = None /\
  handle_in libs0 routes_no_orders (req_nobody "/orders/123") gw0 =
  (gw0, Ok (NotFound "/orders/123")).
Proof.
  apply (proj2 (gateway_longest_prefix_route libs0) gw0 (req_nobody "/orders/123"));
    reflexivity.
Defined.

End GatewayProofs.

Module ServiceProofs.

Import Fixtures.

Section Login.

Variable bcrypt_check : string -> string -> bool.
Variable jwt_sign : string * string -> Z -> string -> string.
Variable num_text : Z -> string.
Variable json_text : Js.value -> string.
Variable jwt_secret : option string.
Variable iat : Z.

Import Auth.

Local Abbreviation login := (login bcrypt_check jwt_sign num_text json_text jwt_secret iat).

(** The rows [SELECT * FROM users WHERE email=$1] returns. *)
Definition rows_for (s : St) (body : Js.value) : list user :=
  match pg_param num_text json_text (Js.get "email" body) with
  | None => []
  | Some e => List.filter (fun u => String.eqb (u_email u) e) (users s)
  end.

(** With [email] UNIQUE, at most one row has a given email. *)
Lemma filter_nodup_le1 (l : list user) (e : string) :
  List.NoDup (List.map u_email l) ->
  (length (List.filter (fun u => String.eqb (u_email u) e) l) <= 1)%nat.
Proof.
  induction l as [|u l IH]; intros Hnd; simpl; [lia|].
  inversion Hnd as [|? ? Hu Hl]; subst.
  destruct (String.eqb_spec (u_email u) e) as [<-|]; [|auto].
  simpl. assert (List.filter (fun u' => String.eqb (u_email u') (u_email u)) l = []) as ->;
    [|simpl; lia].
  clear IH Hnd Hl. induction l as [|v l IHl]; simpl; [reflexivity|].
  destruct (String.eqb_spec (u_email v) (u_email u)) as [Heq|].
  - exfalso. apply Hu. left. exact Heq.
  - apply IHl. intros H. apply Hu. now right.
Qed.


Lemma login_unfold (s : St) (body : Js.value) :
  db_up s = true ->
  login body s =
  match rows_for s body with
  | [] => (s, Ok (Status 401))
  | u :: _ =>
      match Js.get "password" body with
      | Js.Str pw =>
          if bcrypt_check pw (u_password u)
          then match jwt_secret with
               | Some k =>
                   if String.eqb k "" then (s, Rejected "secretOrPrivateKey must have a value")
                   else (s, Ok (Token (jwt_sign (u_id u, u_role u) iat k)))
               | None => (s, Rejected "secretOrPrivateKey must have a value")
               end
          else (s, Ok (Status 401))
      | _ => (s, Rejected "Illegal arguments")
      end
  end.
Proof.
  intros Hup. unfold Auth.login, await, select_by_email, rows_for. rewrite Hup.
  destruct (match pg_param num_text json_text (Js.get "email" body) with
            | None => [] | Some e => _ end) as [|u rest]; [reflexivity|].
  unfold compareSync, ret. destruct (Js.get "password" body); try reflexivity.
  destruct (bcrypt_check s0 (u_password u)); [|reflexivity].
  unfold Auth.sign. destruct jwt_secret as [k|]; [|reflexivity].
  destruct (String.eqb k ""); reflexivity.
Qed.


End Login.



(** C8 (as the code behaves): past [express.json()] the payment handler
    ignores its request: any two requests the parser lets through get the
    same reply, {"status": "PAYMENT_SUCCESS"}, and so does every request
    the parser does not read (no JSON body).  Any other reply is the
    parser's 400, 413 or 415. *)
Theorem payments_constant (L : BodyParser.libs) :
  (forall r1 r2, BodyParser.json L r1 = BodyParser.Next -> BodyParser.json L r2 = BodyParser.Next ->
     Payment.post_payments L r1 = Payment.post_payments L r2) /\
  (forall r, BodyParser.json L r = BodyParser.Next ->
     Payment.post_payments L r = Payment.PayJson "PAYMENT_SUCCESS") /\
  (forall r, BodyParser.consumed r = false ->
     Payment.post_payments L r = Payment.PayJson "PAYMENT_SUCCESS") /\
  (forall r, Payment.post_payments L r <> Payment.PayJson "PAYMENT_SUCCESS" ->
     exists st, Payment.post_payments L r = Payment.PayError st /\
                (st = 400 \/ st = 413 \/ st = 415)%Z).
Proof.
  unfold Payment.post_payments. split; [|split; [|split]].
  - intros r1 r2 H1 H2. now rewrite H1, H2.
  - intros r H. now rewrite H.
  - intros r H. unfold BodyParser.json. unfold BodyParser.consumed in H. now rewrite H.
  - intros r Hne. unfold BodyParser.json in *.
    destruct (BodyParser.has_body r && BodyParser.is_json r); [|contradiction].
    cbn [negb] in *.
    destruct (BodyParser.charset_ok L (BodyParser.charset r)); [|eexists; split; [reflexivity|auto]].
    cbn [negb] in *.
    destruct (BodyParser.decode L r) as [[b|]|]; [|eexists; split; [reflexivity|auto] ..].
    destruct (BodyParser.limit <? Z.of_nat (String.length b))%Z; [eexists; split; [reflexivity|auto]|].
    destruct (String.eqb b ""); [contradiction|].
    destruct (negb (BodyParser.strict_ok b)); [eexists; split; [reflexivity|auto]|].
    destruct (BodyParser.json_valid L b); [contradiction|eexists; split; [reflexivity|auto]].
Qed.

(** C8 refuted: a POST /payments whose body is the malformed JSON text "{"
    gets [express.json()]'s 400, while one with no body gets
    PAYMENT_SUCCESS: the reply depends on the body. *)
Lemma payment_bad_json_rejected :
  Payment.post_payments libs0 (req_bad_json "/payments") = Payment.PayError 400 /\
  Payment.post_payments libs0 (req_bad_json "/payments") <>
  Payment.post_payments libs0 (req_nobody "/payments").
Proof. split; [reflexivity|discriminate]. Qed.

Section Orders.

Variable uuid_of : nat -> string.

Import Order.

Local Abbreviation post_orders := (post_orders uuid_of).

(** C10: a POST /orders that completes appends exactly one row
    (id, "PLACED"), enqueues exactly one "order.created" job carrying the
    same id, and replies with that id and "PLACED"; the id is the uuid
    drawn by the call. *)
Theorem post_orders_success (s s' : St) (r : oresp) :
  post_orders s = (s', Ok r) ->
  let id := uuid_of (uuids_drawn s) in
  orders s' = (orders s ++ [(id, "PLACED")])%list /\
  queue s' = (queue s ++ [("order.created", id)])%list /\
  r = OrderJson id "PLACED".
Proof.
  unfold Order.post_orders, await, db_create_table, uuid, db_insert, queue_add, ret.
  destruct s as [tbl os q n up rup]; simpl.
  destruct up; simpl; [|discriminate].
  destruct rup; simpl; [|discriminate].
  intros H. injection H as <- <-. simpl. auto.
Qed.

End Orders.

Lemma post_orders_success_witness :
  Order.orders (fst (Order.post_orders uuid_seq order0)) = [("id-0", "PLACED")] /\
  Order.queue (fst (Order.post_orders uuid_seq order0)) = [("order.created", "id-0")] /\
  Order.OrderJson "id-0" "PLACED" = Order.OrderJson "id-0" "PLACED".
Proof.
  apply (post_orders_success uuid_seq order0 (fst (Order.post_orders uuid_seq order0))
           (Order.OrderJson "id-0" "PLACED")).
  reflexivity.
Defined.

End ServiceProofs.

(* ================================================================== *)
(** * Further properties of the services *)

Module GatewayMounts.

Import Gateway.

Lemma append_cons (c : ascii) (a b : string) : String c a ++ b = String c (a ++ b).
Proof. reflexivity. Qed.

Lemma append_EmptyString_r (a : string) : a ++ "" = a.
Proof. induction a as [|c a IH]; [reflexivity|now rewrite append_cons, IH]. Qed.

Lemma length_append (a b : string) : String.length (a ++ b) = (String.length a + String.length b)%nat.
Proof. induction a as [|c a IH]; [reflexivity|rewrite append_cons; simpl; now rewrite IH]. Qed.

Lemma append_inv_head (a b c : string) : a ++ b = a ++ c -> b = c.
Proof.
  induction a as [|x a IH]; [auto|]. rewrite !append_cons. intros H. injection H. auto.
Qed.

Lemma strip_prefix_app (a x r : string) : strip_prefix a x = Some r <-> x = a ++ r.
Proof.
  revert x. induction a as [|c a IH]; intros x; simpl; rewrite ?append_cons.
  - split; [intros H; injection H; auto|intros ->; reflexivity].
  - destruct x as [|d x]; [split; discriminate|].
    destruct (Ascii.eqb_spec c d) as [->|Hne].
    + rewrite IH. split; [intros ->; reflexivity|intros H; injection H; auto].
    + split; [discriminate|intros H; injection H; congruence].
Qed.

(** Express's mount test: a path is handled by the middleware mounted at
    [m] exactly when, ignoring ASCII case, it is [m] itself or [m]
    followed by a [/] and anything. *)
Theorem mount_matches_iff (m p : string) :
  mount_matches m p = true <->
  lowercase p = lowercase m \/ exists r, lowercase p = lowercase m ++ String "/" r.
Proof.
  unfold mount_matches.
  destruct (strip_prefix (lowercase m) (lowercase p)) as [rest|] eqn:E.
  - apply strip_prefix_app in E. rewrite E.
    destruct rest as [|c r].
    + rewrite append_EmptyString_r. split; [left; reflexivity|reflexivity].
    + destruct (Ascii.eqb_spec c "/") as [->|Hne].
      * split; [intros _; right; eauto|reflexivity].
      * split; [discriminate|].
        intros [H|[r' H]].
        -- apply (f_equal String.length) in H. rewrite length_append in H. simpl in H. lia.
        -- apply append_inv_head in H. injection H. congruence.
  - split; [discriminate|].
    intros [H|[r H]]; exfalso.
    + assert (strip_prefix (lowercase m) (lowercase p) = Some "") as E'
        by (apply strip_prefix_app; rewrite H; symmetry; apply append_EmptyString_r).
      congruence.
    + assert (strip_prefix (lowercase m) (lowercase p) = Some (String "/" r)) as E'
        by (apply strip_prefix_app; exact H).
      congruence.
Qed.

Lemma lower_idem (c : ascii) : lower (lower c) = lower c.
Proof. destruct c as [[] [] [] [] [] [] [] []]; reflexivity. Qed.

Lemma lowercase_idem (p : string) : lowercase (lowercase p) = lowercase p.
Proof. induction p as [|c p IH]; simpl; [reflexivity|]. now rewrite lower_idem, IH. Qed.

(** Routing ignores ASCII case: a path and its lower-case form reach the
    same upstream, so "/ORDERS/1" goes to the order service. *)
Theorem dispatch_case_insensitive (t : list (string * string)) (p : string) :
  dispatch t (lowercase p) = dispatch t p /\
  dispatch routes "/ORDERS/1" = Some "http://order-service:4003".
Proof.
  split; [|reflexivity].
  induction t as [|[m target] t IH]; simpl; [reflexivity|].
  unfold mount_matches. rewrite lowercase_idem. now rewrite IH.
Qed.

End GatewayMounts.

Module RestaurantWriteProofs.

Import Restaurant RestaurantWrite RestaurantProofs.

Section Writes.

Variable row : Type.
Variable row_json : row -> string.
Variable parse : string -> list row.
Variable mk_row : string -> Js.value -> row.

Local Abbreviation get := (get_restaurants row_json parse).
Local Abbreviation post := (post_restaurants mk_row).

Lemma post_effect (s : St row) (id : string) (body : Js.value) :
  post id body s =
  if db_up s
  then (set_table (restaurants s ++ [mk_row id (Js.get "name" body)]) s, Ok (IdJson id))
  else (s, Rejected "ECONNREFUSED").
Proof.
  unfold post_restaurants, await, db_create, db_insert, ret.
  destruct (db_up s) eqn:H; simpl; rewrite ?H; reflexivity.
Qed.

(** POST /restaurants does not touch the cache: while an entry is live, a
    GET after a POST still answers the cached list, without the new row. *)
Theorem post_keeps_stale_cache (s : St row) (id : string) (body : Js.value) (c : string) (e : Z) :
  reachable row_json parse s ->
  redis s !! "restaurants" = Some (c, e) ->
  (now s < e)%Z ->
  let s' := fst (post id body s) in
  get s' = (s', Ok (Json (parse c))).
Proof.
  intros Hr Hk Hlt. cbv zeta. rewrite post_effect.
  assert (Hw : forall t : St row, reachable row_json parse t ->
                 redis t = redis s -> now t = now s -> get t = (t, Ok (Json (parse c)))).
  { intros t Ht Hred Hn.
    assert (Hkt : redis t !! "restaurants" = Some (c, e)) by (rewrite Hred; exact Hk).
    destruct (reachable_redis_json row row_json parse t Ht _ _ _ Hkt) as [rs ->].
    apply get_warm; [|apply stringify_truthy].
    unfold live. rewrite Hkt, Hn. destruct (Z.ltb_spec (now s) e); [reflexivity|lia]. }
  destruct (db_up s); apply Hw; try reflexivity; [apply r_table|]; exact Hr.
Qed.

(** With no live entry, a GET after a successful POST reads the table:
    the rows it had and the new one, in whatever order. *)
Theorem post_then_cold_get (s : St row) (id : string) (body : Js.value) :
  db_up s = true ->
  live s "restaurants" = None ->
  exists rs, snd (get (fst (post id body s))) = Ok (Json rs) /\
             rs ≡ₚ mk_row id (Js.get "name" body) :: restaurants s.
Proof.
  intros Hup Hcold. exists (restaurants s ++ [mk_row id (Js.get "name" body)])%list.
  split; [|exact (Permutation_app_comm _ _)].
  rewrite post_effect, Hup. cbn [fst].
  assert (Hl : live (set_table (restaurants s ++ [mk_row id (Js.get "name" body)]) s)
                    "restaurants" = None) by exact Hcold.
  rewrite (get_cold row row_json parse _ Hl).
  rewrite (load_up row row_json _) by exact Hup. reflexivity.
Qed.

(** No cached restaurant list outlives its 60 s: in every reachable state
    the "restaurants" entry expires at most 60 s after the current time.
    (Other keys of the same Redis instance, such as the job queue's, are
    not this service's and are not modelled.) *)
Theorem cache_expiry_bound (s : St row) :
  reachable row_json parse s ->
  forall v e, redis s !! "restaurants" = Some (v, e) -> (e <= now s + 60)%Z.
Proof.
  induction 1 as [t rs up|s Hr IH|s dt Hr IH Hdt|s rs Hr IH|s b Hr IH];
    intros v e Hk.
  - simpl in Hk. rewrite lookup_empty in Hk. discriminate.
  - assert (Hnow : now (fst (get s)) = now s).
    { unfold get_restaurants, load_and_cache, await, redis_get, db_select, redis_setEx, ret.
      destruct (live s "restaurants") as [c|];
        [destruct (truthy (Some c))|]; try reflexivity; destruct (db_up s); reflexivity. }
    rewrite Hnow.
    destruct (get_redis_effect row row_json parse s) as [Heq|[rs Heq]]; rewrite Heq in Hk;
      [eauto|].
    rewrite lookup_insert_eq in Hk. injection Hk as _ <-. lia.
  - simpl in Hk |- *. specialize (IH v e Hk). lia.
  - simpl in Hk |- *. eauto.
  - simpl in Hk |- *. eauto.
Qed.

End Writes.

Import Fixtures.

Lemma post_keeps_stale_cache_witness :
  let s1 := fst (get_restaurants unit_json unit_parse rs0) in
  let s' := fst (post_restaurants unit_row "r2" (Js.Obj [("name", Js.Str "Deli")]) s1) in
  get_restaurants unit_json unit_parse s' = (s', Ok (Json (unit_parse "[{}]"))).
Proof.
  apply (post_keeps_stale_cache unit unit_json unit_parse unit_row _ _ _ "[{}]" 60%Z).
  - apply r_get, r_init.
  - vm_compute. reflexivity.
  - vm_compute. reflexivity.
Defined.

Lemma post_then_cold_get_witness :
  exists rs, snd (get_restaurants unit_json unit_parse
         (fst (post_restaurants unit_row "r2" (Js.Obj [("name", Js.Str "Deli")]) rs0))) =
  Ok (Json rs) /\ rs ≡ₚ [tt; tt].
Proof. apply (post_then_cold_get unit unit_json unit_parse unit_row rs0); reflexivity. Defined.

Lemma cache_expiry_bound_witness :
  let s1 := fst (get_restaurants unit_json unit_parse rs0) in
  (60 <= now s1 + 60)%Z.
Proof.
  cbv zeta.
  apply (cache_expiry_bound unit unit_json unit_parse
           (fst (get_restaurants unit_json unit_parse rs0)) ltac:(apply r_get, r_init)
           "[{}]").
  vm_compute. reflexivity.
Defined.

End RestaurantWriteProofs.

Module AuthProofs.

Import Auth AuthRegister.

Section Accounts.

Variable bcrypt_hash : string -> string.
Variable num_text : Z -> string.
Variable json_text : Js.value -> string.

Local Abbreviation register := (register bcrypt_hash num_text json_text).
Local Abbreviation pg_value := (pg_value num_text json_text).

(** The text stored in the [role] column for a registration body. *)
Definition stored_role (body : Js.value) : string :=
  match pg_value (role_or_user (Js.get "role" body)) with
  | Some r => r
  | None => "USER"
  end.

Lemma role_param_some (v : Js.value) : pg_value (role_or_user v) = Some (
  match pg_value (role_or_user v) with Some r => r | None => "USER" end).
Proof.
  destruct v as [| |b|n|t|xs|fs]; unfold role_or_user; simpl; try reflexivity.
  - destruct b; reflexivity.
  - destruct (Z.eqb n 0); reflexivity.
  - destruct (String.eqb t ""); reflexivity.
Qed.

Lemma insert_user_rejects_unchanged (id : string) (email : Js.value) (h : string)
    (role : Js.value) (s : St) (err : string) :
  snd (insert_user num_text json_text id email h role s) = Rejected err ->
  fst (insert_user num_text json_text id email h role s) = s.
Proof.
  unfold insert_user. destruct (negb (db_up s)); [reflexivity|].
  destruct (pg_value email), (pg_value role); try reflexivity.
  destruct (List.existsb _ _); [reflexivity|].
  destruct (List.existsb _ _); [reflexivity|]. discriminate.
Qed.

Lemma register_unfold (id : string) (body : Js.value) (s : St) :
  register id body s =
  match Js.get "password" body with
  | Js.Str p =>
      match insert_user num_text json_text id (Js.get "email" body) (bcrypt_hash p)
              (role_or_user (Js.get "role" body)) s with
      | (s', Ok _) => (s', Ok Registered)
      | (s', Rejected e) => (s', Rejected e)
      end
  | _ => (s, Rejected "Illegal arguments")
  end.
Proof.
  unfold AuthRegister.register, await, hash, ret.
  destruct (Js.get "password" body); try reflexivity.
Qed.

(** A registration that fails leaves the users table as it was; it fails
    when the password is not a string (bcrypt.hash rejects), when the email
    is missing or null (NOT NULL), and when the email is already taken
    (UNIQUE). *)
Theorem register_failures (id : string) (body : Js.value) (s : St) :
  (forall err, snd (register id body s) = Rejected err -> fst (register id body s) = s) /\
  ((forall p, Js.get "password" body <> Js.Str p) ->
     exists err, snd (register id body s) = Rejected err) /\
  (pg_value (Js.get "email" body) = None ->
     exists err, snd (register id body s) = Rejected err) /\
  (forall e, pg_value (Js.get "email" body) = Some e ->
     List.Exists (fun u => u_email u = e) (users s) ->
     exists err, snd (register id body s) = Rejected err).
Proof.
  rewrite register_unfold. split; [|split; [|split]].
  - intros err. destruct (Js.get "password" body); try reflexivity.
    destruct (insert_user _ _ _ _ _ _ _) as [s' [u|e]] eqn:E; [discriminate|].
    intros _. change s' with (fst (s', @Rejected unit e)). rewrite <- E.
    apply (insert_user_rejects_unchanged _ _ _ _ _ e). rewrite E. reflexivity.
  - intros Hnot. destruct (Js.get "password" body); try (eexists; reflexivity).
    exfalso. eapply Hnot. reflexivity.
  - intros Hnone. destruct (Js.get "password" body); try (eexists; reflexivity).
    unfold insert_user. destruct (negb (db_up s)); [eexists; reflexivity|].
    rewrite Hnone. eexists; reflexivity.
  - intros e He Hex. destruct (Js.get "password" body); try (eexists; reflexivity).
    unfold insert_user. destruct (negb (db_up s)); [eexists; reflexivity|].
    rewrite He, role_param_some.
    destruct (List.existsb (fun u => String.eqb (u_id u) id) (users s)); [eexists; reflexivity|].
    assert (Hb : List.existsb (fun u => String.eqb (u_email u) e) (users s) = true).
    { apply List.existsb_exists. apply List.Exists_exists in Hex.
      destruct Hex as [u [Hin Hu]]. exists u. split; [exact Hin|]. now apply String.eqb_eq. }
    rewrite Hb. eexists; reflexivity.
Qed.

Lemma nodup_snoc {A} (l : list A) (x : A) :
  List.NoDup l -> ~ List.In x l -> List.NoDup (l ++ [x])%list.
Proof.
  induction l as [|a l IH]; intros Hnd Hnin; simpl.
  - constructor; [intros []|constructor].
  - inversion Hnd as [|? ? Ha Hl]; subst. constructor.
    + rewrite List.in_app_iff. intros [H|[H|[]]]; [tauto|]. subst. apply Hnin. now left.
    + apply IH; [exact Hl|]. intros H. apply Hnin. now right.
Qed.

(** Registration keeps emails unique in the users table, so the login
    query returns at most one row. *)
Theorem register_keeps_emails_unique (id : string) (body lbody : Js.value) (s : St) :
  List.NoDup (List.map u_email (users s)) ->
  List.NoDup (List.map u_email (users (fst (register id body s)))) /\
  (length (ServiceProofs.rows_for num_text json_text (fst (register id body s)) lbody) <= 1)%nat.
Proof.
  intros Hnd.
  assert (H : List.NoDup (List.map u_email (users (fst (register id body s))))).
  { rewrite register_unfold. destruct (Js.get "password" body); try exact Hnd.
    unfold insert_user. destruct (negb (db_up s)); [exact Hnd|].
    destruct (pg_value (Js.get "email" body)) as [e|], (pg_value (role_or_user (Js.get "role" body))); try exact Hnd.
    destruct (List.existsb (fun u => String.eqb (u_id u) id) (users s)); [exact Hnd|].
    destruct (List.existsb (fun u => String.eqb (u_email u) e) (users s)) eqn:Hex; [exact Hnd|].
    simpl. rewrite List.map_app. apply nodup_snoc; [exact Hnd|]. simpl.
    intros Hin. apply List.in_map_iff in Hin. destruct Hin as [u [Hu Hin]].
    assert (List.existsb (fun u => String.eqb (u_email u) e) (users s) = true).
    { apply List.existsb_exists. exists u. split; [exact Hin|]. now apply String.eqb_eq. }
    congruence. }
  split; [exact H|]. unfold ServiceProofs.rows_for.
  destruct (pg_param num_text json_text (Js.get "email" lbody));
    [apply ServiceProofs.filter_nodup_le1, H|simpl; lia].
Qed.

Variable bcrypt_check : string -> string -> bool.
Variable jwt_sign : string * string -> Z -> string -> string.
Variable jwt_secret : option string.
Variable iat : Z.

Local Abbreviation login := (login bcrypt_check jwt_sign num_text json_text jwt_secret iat).

(** Registering a fresh email and password and then logging in with the
    same email and password yields the token signed over the new row's id
    and its stored role ([role || "USER"]), given that bcrypt accepts the
    password against its own hash and that [JWT_SECRET] is set and not
    empty. *)
Theorem register_then_login (s : St) (id e p k : string) (body lbody : Js.value) :
  db_up s = true ->
  Js.get "email" body = Js.Str e -> Js.get "password" body = Js.Str p ->
  Js.get "email" lbody = Js.Str e -> Js.get "password" lbody = Js.Str p ->
  List.Forall (fun u => u_email u <> e /\ u_id u <> id) (users s) ->
  bcrypt_check p (bcrypt_hash p) = true ->
  jwt_secret = Some k -> k <> "" ->
  let s' := fst (register id body s) in
  snd (register id body s) = Ok Registered /\
  users s' = (users s ++ [mkUser id e (bcrypt_hash p) (stored_role body)])%list /\
  snd (login lbody s') = Ok (Token (jwt_sign (id, stored_role body) iat k)).
Proof.
  intros Hup He Hp Hle Hlp Hfresh Hcheck Hsec Hk. cbv zeta.
  assert (Hid : List.existsb (fun u => String.eqb (u_id u) id) (users s) = false).
  { apply Bool.not_true_iff_false. intros Hx. apply List.existsb_exists in Hx.
    destruct Hx as [u [Hin Hu]]. apply String.eqb_eq in Hu.
    rewrite List.Forall_forall in Hfresh. destruct (Hfresh u Hin); contradiction. }
  assert (Hem : List.existsb (fun u => String.eqb (u_email u) e) (users s) = false).
  { apply Bool.not_true_iff_false. intros Hx. apply List.existsb_exists in Hx.
    destruct Hx as [u [Hin Hu]]. apply String.eqb_eq in Hu.
    rewrite List.Forall_forall in Hfresh. destruct (Hfresh u Hin); contradiction. }
  assert (Hreg : register id body s =
                 (mkSt (users s ++ [mkUser id e (bcrypt_hash p) (stored_role body)]) (db_up s),
                  Ok Registered)).
  { rewrite register_unfold, Hp. unfold insert_user. rewrite Hup. simpl negb.
    cbv iota. rewrite He. simpl pg_value. unfold stored_role.
    rewrite role_param_some. cbv iota. rewrite Hid, Hem. reflexivity. }
  rewrite Hreg. cbn [fst snd]. split; [reflexivity|]. split; [reflexivity|].
  rewrite (ServiceProofs.login_unfold bcrypt_check jwt_sign num_text json_text jwt_secret iat)
    by exact Hup.
  assert (Hrows : ServiceProofs.rows_for num_text json_text
                    (mkSt (users s ++ [mkUser id e (bcrypt_hash p) (stored_role body)]) (db_up s))
                    lbody = [mkUser id e (bcrypt_hash p) (stored_role body)]).
  { unfold ServiceProofs.rows_for. rewrite Hle. simpl. rewrite List.filter_app.
    assert (List.filter (fun u => String.eqb (u_email u) e) (users s) = []) as ->.
    { clear Hid Hem Hreg. induction Hfresh as [|u l [Hu _] _ IH]; [reflexivity|].
      simpl. destruct (String.eqb_spec (u_email u) e); [contradiction|exact IH]. }
    simpl. now rewrite String.eqb_refl. }
  rewrite Hrows, Hlp. simpl. rewrite Hcheck, Hsec.
  destruct (String.eqb_spec k ""); [contradiction|reflexivity].
Qed.

End Accounts.

Import Fixtures.

Lemma register_then_login_witness :
  let body := Js.Obj [("email", Js.Str "b@x.io"); ("password", Js.Str "secret")] in
  let s' := fst (register hash_h num_dec json_dummy "u2" body auth0) in
  snd (register hash_h num_dec json_dummy "u2" body auth0) = Ok Registered /\
  users s' = (users auth0 ++ [mkUser "u2" "b@x.io" (hash_h "secret")
                               (stored_role num_dec json_dummy body)])%list /\
  snd (login check_secret sign_dot num_dec json_dummy (Some "k") 0%Z
         (login_body (Js.Str "b@x.io") (Js.Str "secret")) s')
  = Ok (Token (sign_dot ("u2", stored_role num_dec json_dummy body) 0%Z "k")).
Proof.
  apply (register_then_login hash_h num_dec json_dummy check_secret sign_dot (Some "k") 0%Z auth0
           "u2" "b@x.io" "secret" "k"); try reflexivity; try discriminate.
  repeat constructor; discriminate.
Defined.

Lemma register_keeps_emails_unique_witness :
  List.NoDup (List.map u_email (users (fst (register hash_h num_dec json_dummy "u2"
     (Js.Obj [("email", Js.Str "a@x.io"); ("password", Js.Str "pw")]) auth0)))) /\
  (length (ServiceProofs.rows_for num_dec json_dummy (fst (register hash_h num_dec json_dummy "u2"
     (Js.Obj [("email", Js.Str "a@x.io"); ("password", Js.Str "pw")]) auth0))
     (login_body (Js.Str "a@x.io") (Js.Str "pw"))) <= 1)%nat.
Proof.
  apply register_keeps_emails_unique. constructor; [intros []|constructor].
Defined.

End AuthProofs.

Module AuthInitProofs.

Import AuthInit.

(** [initDB(retries, delay)] tries at most [retries] times, sleeps [delay]
    between consecutive tries and never after the last, resolves exactly
    when [retries] is 0 or one of the [retries] tries succeeds, and
    otherwise ends in [process.exit(1)]. *)
Theorem init_db_attempts (db_ok : nat -> bool) (n : nat) (d : Z) (a : nat) :
  let r := init_db db_ok n d a in
  (attempts (fst r) <= n)%nat /\
  (0 < n -> 0 < attempts (fst r))%nat /\
  slept (fst r) = (d * Z.of_nat (attempts (fst r) - 1))%Z /\
  (snd r = Resolved <-> n = 0%nat \/ exists k, (k < n)%nat /\ db_ok (a + k)%nat = true) /\
  (snd r = Resolved \/ snd r = Exit 1).
Proof.
  cbv zeta. revert a. induction n as [|r IH]; intros a; simpl.
  - split; [lia|]. split; [lia|]. split; [lia|].
    split; [tauto|]. now left.
  - destruct (db_ok a) eqn:Hok; simpl.
    + split; [lia|]. split; [lia|]. split; [lia|]. split; [|now left].
      split; [intros _; right; exists 0%nat; split; [lia|now rewrite Nat.add_0_r]|reflexivity].
    + destruct (Nat.eqb_spec r 0) as [->|Hr]; simpl.
      * split; [lia|]. split; [lia|]. split; [lia|]. split; [|now right].
        split; [discriminate|]. intros [H|[k [Hk Hk']]]; [discriminate|].
        assert (k = 0%nat) as -> by lia. rewrite Nat.add_0_r in Hk'. congruence.
      * specialize (IH (S a)).
        destruct (init_db db_ok r d (S a)) as [evs e]. simpl in IH |- *.
        destruct IH as [Hle [Hpos [Hsl [Hres Hend]]]].
        assert (Hp : (0 < attempts evs)%nat) by (apply Hpos; lia).
        split; [lia|]. split; [lia|]. split.
        { rewrite Hsl. destruct (attempts evs) as [|m]; [lia|].
          replace (S (S m) - 1)%nat with (S m) by lia.
          replace (S m - 1)%nat with m by lia. lia. }
        split; [|exact Hend]. rewrite Hres. split.
        -- intros [H|[k [Hk Hk']]]; [lia|].
           right. exists (S k). split; [lia|]. now rewrite Nat.add_succ_r.
        -- intros [H|[k [Hk Hk']]]; [discriminate|].
           destruct k as [|k]; [rewrite Nat.add_0_r in Hk'; congruence|].
           right. exists k. split; [lia|]. now rewrite <- Nat.add_succ_r.
Qed.

(** With its defaults the auth service starts listening iff one of the first
    ten [CREATE TABLE] calls succeeds; when all ten fail it has slept nine
    times 3000 ms and exits with code 1. *)
Theorem startup_outcome (db_ok : nat -> bool) :
  (snd (startup db_ok) = Resolved <-> exists k, (k < 10)%nat /\ db_ok k = true) /\
  ((forall k, (k < 10)%nat -> db_ok k = false) ->
     snd (startup db_ok) = Exit 1 /\ attempts (fst (startup db_ok)) = 10%nat /\
     slept (fst (startup db_ok)) = 27000%Z).
Proof.
  unfold startup. destruct (init_db_attempts db_ok 10 3000%Z 0) as [Hle [Hpos [Hsl [Hres Hend]]]].
  split.
  - rewrite Hres. split.
    + intros [H|[k [Hk Hk']]]; [discriminate|]. now exists k.
    + intros [k [Hk Hk']]. right. now exists k.
  - intros Hfail.
    assert (Hall : forall r a, (a + r <= 10)%nat -> (0 < r)%nat ->
              attempts (fst (init_db db_ok r 3000%Z a)) = r /\
              snd (init_db db_ok r 3000%Z a) = Exit 1).
    { induction r as [|r IHr]; intros a Har Hr; [lia|]. simpl.
      rewrite (Hfail a) by lia.
      destruct (Nat.eqb_spec r 0) as [->|Hr0]; [split; reflexivity|].
      destruct (IHr (S a)) as [Ha He]; [lia|lia|].
      destruct (init_db db_ok r 3000%Z (S a)) as [evs e]. simpl in Ha, He |- *.
      split; [now rewrite Ha|exact He]. }
    destruct (Hall 10%nat 0%nat) as [Ha He]; [lia|lia|].
    split; [exact He|]. split; [exact Ha|]. rewrite Hsl, Ha. reflexivity.
Qed.

End AuthInitProofs.

Module OrderProofs.

Import Order.

Section Orders.

Variable uuid_of : nat -> string.

Local Abbreviation post_orders := (post_orders uuid_of).

(** The store after [n] [POST /orders] requests handled one after another. *)
Fixpoint place (n : nat) (s : St) : St :=
  match n with
  | 0 => s
  | S k => place k (fst (post_orders s))
  end.

Lemma post_orders_up (s : St) :
  db_up s = true -> redis_up s = true ->
  post_orders s =
  (mkSt true (orders s ++ [(uuid_of (uuids_drawn s), "PLACED")])
        (queue s ++ [("order.created", uuid_of (uuids_drawn s))])
        (S (uuids_drawn s)) true true,
   Ok (OrderJson (uuid_of (uuids_drawn s)) "PLACED")).
Proof.
  intros Hdb Hr. destruct s as [t o q n db r]; simpl in Hdb, Hr; subst.
  reflexivity.
Qed.

(** A request with the database down is rejected before anything is
    written or any id drawn; with the database up but Redis down the row is
    inserted and the id drawn, yet no job is queued and the request is
    rejected: the insert and the enqueue are not atomic. *)
Theorem post_orders_failures (s : St) :
  (db_up s = false -> post_orders s = (s, Rejected "ECONNREFUSED")) /\
  (db_up s = true -> redis_up s = false ->
     orders (fst (post_orders s)) = (orders s ++ [(uuid_of (uuids_drawn s), "PLACED")])%list /\
     queue (fst (post_orders s)) = queue s /\
     uuids_drawn (fst (post_orders s)) = S (uuids_drawn s) /\
     snd (post_orders s) = Rejected "ECONNREFUSED").
Proof.
  destruct s as [t o q n db r]; simpl. split.
  - intros ->. reflexivity.
  - intros -> ->. repeat split.
Qed.

(** [n] successful requests in a row append [n] rows and [n] jobs, the
    [i]-th carrying the [i]-th fresh uuid, so rows and jobs name the same
    ids in the same order. *)
Theorem place_appends (n : nat) (s : St) :
  db_up s = true -> redis_up s = true ->
  orders (place n s) =
    (orders s ++ List.map (fun i => (uuid_of (uuids_drawn s + i), "PLACED")) (List.seq 0 n))%list /\
  queue (place n s) =
    (queue s ++ List.map (fun i => ("order.created", uuid_of (uuids_drawn s + i))) (List.seq 0 n))%list /\
  uuids_drawn (place n s) = (uuids_drawn s + n)%nat.
Proof.
  revert s. induction n as [|n IH]; intros s Hdb Hr; simpl.
  - rewrite !List.app_nil_r, Nat.add_0_r. repeat split.
  - rewrite post_orders_up by assumption. cbn [fst].
    destruct (IH (mkSt true (orders s ++ [(uuid_of (uuids_drawn s), "PLACED")])
                    (queue s ++ [("order.created", uuid_of (uuids_drawn s))])
                    (S (uuids_drawn s)) true true)) as [Ho [Hq Hn]]; [reflexivity|reflexivity|].
    rewrite Ho, Hq, Hn. cbn [orders queue uuids_drawn].
    rewrite <- List.seq_shift, !List.map_map, <- !List.app_assoc, Nat.add_0_r.
    split; [|split; [|lia]]; f_equal; simpl; f_equal;
      apply List.map_ext; intros i; now rewrite Nat.add_succ_r.
Qed.

End Orders.

Import Fixtures.

Lemma place_appends_witness :
  Order.orders (place uuid_seq 2 order0) = [("id-0", "PLACED"); ("id-0", "PLACED")] /\
  Order.queue (place uuid_seq 2 order0) = [("order.created", "id-0"); ("order.created", "id-0")] /\
  Order.uuids_drawn (place uuid_seq 2 order0) = 2%nat.
Proof.
  destruct (place_appends uuid_seq 2 order0 eq_refl eq_refl) as [Ho [Hq Hn]].
  split; [exact Ho|]. split; [exact Hq|exact Hn].
Defined.

End OrderProofs.
